(** * Converse Hub: the branching / versioning message board of [src/app/page.tsx]

    A shallow embedding of the page component: the [Message] rows, the
    [messages] table behind the Supabase client, the React state of
    [HomePage] and its handlers ([fetchMessages], [sendMessage],
    [deleteMessage], [deleteMessageRecursive], [toggleBranchesVisibility],
    [renderMessages]), followed by the properties of the specification. *)

From Stdlib Require Import ZArith NArith List Bool Lia Ascii String Sorted Permutation.
From stdpp Require Import base gmap.
Import ListNotations.

Local Open Scope Z_scope.

(** ** Strings

    A JavaScript string is a sequence of UTF-16 code units. *)

Definition jsstring := list N.

Fixpoint of_ascii (s : string) : jsstring :=
  match s with
  | EmptyString => []
  | String a s' => N_of_ascii a :: of_ascii s'
  end.

(** [WhiteSpace] and [LineTerminator] of ECMA-262, the code units that
    [String.prototype.trim] strips. *)
Definition is_white_space (c : N) : bool :=
  ((9 <=? c) && (c <=? 13) || (c =? 32) || (c =? 160) || (c =? 5760)
   || (8192 <=? c) && (c <=? 8202) || (c =? 8232) || (c =? 8233)
   || (c =? 8239) || (c =? 8287) || (c =? 12288) || (c =? 65279))%N.

Fixpoint trimStart (s : jsstring) : jsstring :=
  match s with
  | [] => []
  | c :: s' => if is_white_space c then trimStart s' else s
  end.

Definition trimEnd (s : jsstring) : jsstring := rev (trimStart (rev s)).

Definition trim (s : jsstring) : jsstring := trimEnd (trimStart s).

(** [s === ''] *)
Definition is_empty (s : jsstring) : bool :=
  match s with [] => true | _ :: _ => false end.

(** A text is blank when it is empty or made of white space only. *)
Definition blank (s : jsstring) : Prop := Forall (fun c => is_white_space c = true) s.

(** ** Numbers

    A JavaScript number is a binary64 double.  The numbers of the page hold
    integers ([id], [version]), and a number that holds an integer is kept
    here as that integer.  [round_double x] is the double nearest to the
    integer [x], ties to the even significand: every integer up to [2 ^ 53]
    in magnitude is a double, above it the 53 leading bits are kept.  The
    sum and the difference of two doubles are the exact ones, rounded; the
    exponent range is left out, which [version + 1] and the sign of a
    difference do not reach. *)
Definition round_double (x : Z) : Z :=
  if Z.abs x <=? 2 ^ 53 then x
  else
    let e := Z.log2 (Z.abs x) - 52 in
    let q := Z.abs x / 2 ^ e in
    let r := Z.abs x mod 2 ^ e in
    let q' := if (2 * r <? 2 ^ e) || ((2 * r =? 2 ^ e) && Z.even q) then q
              else q + 1 in
    Z.sgn x * (q' * 2 ^ e).

(** [x + y] and [x - y] on numbers. *)
Definition js_add (x y : Z) : Z := round_double (x + y).
Definition js_sub (x y : Z) : Z := round_double (x - y).

(** ** Data model *)

(** [interface Message].  [id] and [version] are numbers that hold integers;
    [created_at] is the store's timestamp, kept as the instant it denotes. *)
Record Message := mkMessage {
  id : Z;
  content : jsstring;
  parent_id : option Z;
  version : Z;
  created_at : Z
}.

Definition Message_eq_dec (a b : Message) : {a = b} + {a <> b}.
Proof.
  decide equality; try apply Z.eq_dec.
  - decide equality; apply Z.eq_dec.
  - apply (List.list_eq_dec N.eq_dec).
Defined.

(** [message.parent_id === parentId] *)
Definition parent_is (parentId : option Z) (message : Message) : bool :=
  match parent_id message, parentId with
  | None, None => true
  | Some p, Some q => p =? q
  | _, _ => false
  end.

(** ** The message store

    The [messages] table reached through [supabase.from('messages')]: its
    rows, the serial and the clock it stamps new rows with, the number of
    calls it will still answer before failing ([None]: it never fails) and
    the calls issued so far, oldest first. *)

Inductive Call :=
| SelectAll
| SelectChildren (parent : Z)
| Insert (c : jsstring) (p : option Z) (v : Z)
| DeleteById (i : Z).

Inductive StoreError := Unavailable.

Record Store := mkStore {
  rows : list Message;
  next_id : Z;
  clock : Z;
  uptime : option nat;
  calls : list Call
}.

(** The [{ data, error }] object every call resolves to. *)
Record Response (A : Type) := mkResponse {
  data : option A;
  error : option StoreError
}.
Arguments mkResponse {A} _ _.
Arguments data {A} _.
Arguments error {A} _.

Definition succeeded {A} (a : A) : Response A := mkResponse (Some a) None.
Definition failed {A} : Response A := mkResponse None (Some Unavailable).

(** Whether the store answers the next call. *)
Definition answers (db : Store) : bool :=
  match uptime db with Some O => false | _ => true end.

(** Issuing a call logs it and consumes one unit of uptime; the result tells
    whether the store answers it. *)
Definition issue (c : Call) (db : Store) : bool * Store :=
  match uptime db with
  | None => (true, mkStore (rows db) (next_id db) (clock db) None (calls db ++ [c]))
  | Some (S k) => (true, mkStore (rows db) (next_id db) (clock db) (Some k) (calls db ++ [c]))
  | Some O => (false, mkStore (rows db) (next_id db) (clock db) (Some O) (calls db ++ [c]))
  end.

Definition with_rows (r : list Message) (db : Store) : Store :=
  mkStore r (next_id db) (clock db) (uptime db) (calls db).

(** [.insert({content, parent_id, version})]: the store assigns [id] and
    [created_at]. *)
Definition insert (c : jsstring) (p : option Z) (v : Z) (db : Store)
  : Response unit * Store :=
  let '(ok, db1) := issue (Insert c p v) db in
  if ok then
    (succeeded tt,
     mkStore (rows db1 ++ [mkMessage (next_id db1) c p v (clock db1)])
             (next_id db1 + 1) (clock db1 + 1) (uptime db1) (calls db1))
  else (failed, db1).

(** [.delete().eq('id', messageId)] *)
Definition delete_by_id (i : Z) (db : Store) : Response unit * Store :=
  let '(ok, db1) := issue (DeleteById i) db in
  if ok then
    (succeeded tt, with_rows (List.filter (fun m => negb (id m =? i)) (rows db1)) db1)
  else (failed, db1).

(** [.select('id').eq('parent_id', messageId)] *)
Definition select_children (p : Z) (db : Store) : Response (list Z) * Store :=
  let '(ok, db1) := issue (SelectChildren p) db in
  if ok then
    (succeeded (map id (List.filter (parent_is (Some p)) (rows db1))), db1)
  else (failed, db1).

(** [.order('parent_id', { ascending: false })], then [version], then
    [created_at], both descending.  A descending order lists nulls first. *)
Definition desc (x y : Z) : comparison := Z.compare y x.

Definition desc_nullable (x y : option Z) : comparison :=
  match x, y with
  | None, None => Eq
  | None, Some _ => Lt
  | Some _, None => Gt
  | Some a, Some b => desc a b
  end.

Definition then_by (c1 c2 : comparison) : comparison :=
  match c1 with Eq => c2 | _ => c1 end.

Definition fetch_order (a b : Message) : comparison :=
  then_by (desc_nullable (parent_id a) (parent_id b))
    (then_by (desc (version a) (version b)) (desc (created_at a) (created_at b))).

Definition precedes (a b : Message) : bool :=
  match fetch_order a b with Gt => false | _ => true end.

Fixpoint place (x : Message) (l : list Message) : list Message :=
  match l with
  | [] => [x]
  | y :: l' => if precedes x y then x :: l else y :: place x l'
  end.

Definition order_rows (l : list Message) : list Message := fold_right place [] l.

(** [.select('*').order(...).order(...).order(...)] *)
Definition select_all (db : Store) : Response (list Message) * Store :=
  let '(ok, db1) := issue SelectAll db in
  if ok then (succeeded (order_rows (rows db1)), db1) else (failed, db1).

(** ** Asynchronous functions over the store

    An [async] function either returns, throws, or, in this model, is cut
    short when the budget of nested calls is used up. *)

Inductive Outcome (A : Type) :=
| Returned (a : A) (db : Store)
| Threw (e : StoreError) (db : Store)
| Starved.
Arguments Returned {A} _ _.
Arguments Threw {A} _ _.
Arguments Starved {A}.

Definition Async (A : Type) := Store -> Outcome A.

Definition ret {A} (a : A) : Async A := fun db => Returned a db.

Definition throw {A} (e : StoreError) : Async A := fun db => Threw e db.

Definition bind {A B} (c : Async A) (k : A -> Async B) : Async B :=
  fun db =>
    match c db with
    | Returned a db' => k a db'
    | Threw e db' => Threw e db'
    | Starved => Starved
    end.

Definition await {A} (call : Store -> Response A * Store) : Async (Response A) :=
  fun db => let '(r, db') := call db in Returned r db'.

Notation "x <- c ;; k" := (bind c (fun x => k))
  (at level 100, c at next level, right associativity).

(** [for (const x of l) { await body(x) }] *)
Fixpoint for_of {A} (l : list A) (body : A -> Async unit) : Async unit :=
  match l with
  | [] => ret tt
  | x :: l' => _ <- body x ;; for_of l' body
  end.

(** ** Cascading delete *)

Fixpoint deleteMessageRecursive (fuel : nat) (messageId : Z) : Async unit :=
  match fuel with
  | O => fun _ => Starved
  | S fuel' =>
      r <- await (select_children messageId) ;;
      match error r with
      | Some e => throw e
      | None =>
          _ <- match data r with
               | Some (c :: cs) => for_of (c :: cs) (deleteMessageRecursive fuel')
               | _ => ret tt
               end ;;
          r' <- await (delete_by_id messageId) ;;
          match error r' with
          | Some e => throw e
          | None => ret tt
          end
      end
  end.

(** ** React state of [HomePage] *)

Record AppState := mkApp {
  messages : list Message;
  input : jsstring;
  selectedMessage : option Message;
  branchesVisible : gmap Z bool;
  errorMessage : option string
}.

Definition setMessages (v : list Message) (st : AppState) : AppState :=
  mkApp v (input st) (selectedMessage st) (branchesVisible st) (errorMessage st).
Definition setInput (v : jsstring) (st : AppState) : AppState :=
  mkApp (messages st) v (selectedMessage st) (branchesVisible st) (errorMessage st).
Definition setSelectedMessage (v : option Message) (st : AppState) : AppState :=
  mkApp (messages st) (input st) v (branchesVisible st) (errorMessage st).
Definition setBranchesVisible (f : gmap Z bool -> gmap Z bool) (st : AppState) : AppState :=
  mkApp (messages st) (input st) (selectedMessage st) (f (branchesVisible st)) (errorMessage st).
Definition setErrorMessage (v : option string) (st : AppState) : AppState :=
  mkApp (messages st) (input st) (selectedMessage st) (branchesVisible st) v.

(** The initial [useState] values. *)
Definition initial_state : AppState := mkApp [] [] None ∅ None.

(** The page and the store it talks to. *)
Record World := mkWorld { ui : AppState; db : Store }.

Definition fetchMessages (w : World) : World :=
  let '(r, db') := select_all (db w) in
  match error r with
  | Some _ =>
      mkWorld (setErrorMessage (Some "Error fetching messages. Please try again."%string) (ui w)) db'
  | None =>
      mkWorld (setMessages (match data r with Some d => d | None => [] end) (ui w)) db'
  end.

Definition sendMessage (parentMessage : option Message) (w : World) : World :=
  if is_empty (trim (input (ui w))) then w
  else
    let '(r, db') :=
      insert (input (ui w))
             (match parentMessage with Some p => parent_id p | None => None end)
             (match parentMessage with Some p => js_add (version p) 1 | None => 1 end)
             (db w) in
    match error r with
    | Some _ =>
        mkWorld (setErrorMessage (Some "Error sending message. Please try again."%string) (ui w)) db'
    | None => mkWorld (setSelectedMessage None (setInput [] (ui w))) db'
    end.

(** [confirmed] is the answer to [window.confirm]. *)
Definition deleteMessage (fuel : nat) (confirmed : bool) (messageId : Z) (w : World)
  : option World :=
  if negb confirmed then Some w
  else
    match deleteMessageRecursive fuel messageId (db w) with
    | Returned _ db' => Some (fetchMessages (mkWorld (ui w) db'))
    | Threw _ db' =>
        Some (mkWorld (setErrorMessage (Some "Error deleting message. Please try again."%string) (ui w)) db')
    | Starved => None
    end.

Definition handleKeyPress (enter : bool) (w : World) : World :=
  if enter then sendMessage (selectedMessage (ui w)) w else w.

(** [branchesVisible[messageId]] as a condition: an absent entry is falsy. *)
Definition visible (bv : gmap Z bool) (messageId : Z) : bool :=
  match bv !! messageId with Some b => b | None => false end.

Definition toggleBranchesVisibility (messageId : Z) (st : AppState) : AppState :=
  setBranchesVisible (fun prev => <[messageId := negb (visible prev messageId)]> prev) st.

Definition handleCancel (st : AppState) : AppState :=
  setSelectedMessage None (setInput [] st).

(** The [onClick] of the Edit and Branch Reply buttons, the [onChange] of the
    input box and the [onClick] of the send button. *)
Definition clickEdit (message : Message) (st : AppState) : AppState :=
  setInput (content message) (setSelectedMessage (Some message) st).

Definition clickBranchReply (message : Message) (st : AppState) : AppState :=
  setInput [] (setSelectedMessage (Some message) st).

Definition onChange (text : jsstring) (st : AppState) : AppState := setInput text st.

Definition clickSend (w : World) : World := sendMessage (selectedMessage (ui w)) w.

(** The user operations of the message board, as the page offers them. *)
Definition create_root (text : jsstring) (w : World) : World :=
  clickSend (mkWorld (onChange text (handleCancel (ui w))) (db w)).

Definition edit (existing : Message) (text : jsstring) (w : World) : World :=
  clickSend (mkWorld (onChange text (clickEdit existing (ui w))) (db w)).

Definition branch_reply (existing : Message) (text : jsstring) (w : World) : World :=
  clickSend (mkWorld (onChange text (clickBranchReply existing (ui w))) (db w)).

(** ** Rendering *)

(** [Array.prototype.sort] with a comparator: a stable sort. *)
Section js_sort.
Context {A : Type} (cmp : A -> A -> Z).

Fixpoint sort_insert (x : A) (l : list A) : list A :=
  match l with
  | [] => [x]
  | y :: l' => if 0 <? cmp x y then y :: sort_insert x l' else x :: l
  end.

Definition js_sort (l : list A) : list A := fold_right sort_insert [] l.
End js_sort.

Definition sortedMessages (messages : list Message) (parentId : option Z) : list Message :=
  let filteredMessages := List.filter (parent_is parentId) messages in
  js_sort (fun a b => js_sub (version b) (version a)) filteredMessages.

(** One rendered message card; [branches] is the nested block, present when
    the branches of the message are shown. *)
#[warnings="-register-all"]
Inductive Element :=
| Card (message : Message) (level : nat) (branches : option (list Element)).

Definition card_message (e : Element) : Message :=
  match e with Card m _ _ => m end.

Fixpoint map_option {A B} (f : A -> option B) (l : list A) : option (list B) :=
  match l with
  | [] => Some []
  | x :: l' =>
      match f x, map_option f l' with
      | Some y, Some ys => Some (y :: ys)
      | _, _ => None
      end
  end.

Fixpoint renderMessages (fuel : nat) (messages : list Message) (bv : gmap Z bool)
    (parentId : option Z) (level : nat) : option (list Element) :=
  match fuel with
  | O => None
  | S fuel' =>
      map_option
        (fun message =>
           if visible bv (id message) then
             match renderMessages fuel' messages bv (Some (id message)) (level + 1) with
             | Some inner => Some (Card message level (Some inner))
             | None => None
             end
           else Some (Card message level None))
        (sortedMessages messages parentId)
  end.

(** The view projection: the cards in document order with their depth. *)
Fixpoint flatten_card (e : Element) : list (Message * nat) :=
  match e with
  | Card m lvl None => [(m, lvl)]
  | Card m lvl (Some inner) =>
      (m, lvl) :: (fix go (l : list Element) : list (Message * nat) :=
                     match l with
                     | [] => []
                     | e' :: l' => flatten_card e' ++ go l'
                     end) inner
  end.

Definition view (fuel : nat) (st : AppState) : option (list (Message * nat)) :=
  match renderMessages fuel (messages st) (branchesVisible st) None 0 with
  | Some cards => Some (concat (map flatten_card cards))
  | None => None
  end.

(** ** Events of the page

    One step of the page: a handler runs to completion, or the table is
    changed from outside (another client, the dashboard). *)

Inductive step : World -> World -> Prop :=
| step_notify w : step w (fetchMessages w)
| step_typed w text : step w (mkWorld (onChange text (ui w)) (db w))
| step_edit w m : step w (mkWorld (clickEdit m (ui w)) (db w))
| step_branch_reply w m : step w (mkWorld (clickBranchReply m (ui w)) (db w))
| step_send w : step w (clickSend w)
| step_key w enter : step w (handleKeyPress enter w)
| step_cancel w : step w (mkWorld (handleCancel (ui w)) (db w))
| step_toggle w i : step w (mkWorld (toggleBranchesVisibility i (ui w)) (db w))
| step_delete w fuel confirmed i w' :
    deleteMessage fuel confirmed i w = Some w' -> step w w'
| step_outside w db' : step w (mkWorld (ui w) db').

Inductive reachable : World -> Prop :=
| reachable_mount db0 : reachable (mkWorld initial_state db0)
| reachable_step w w' : reachable w -> step w w' -> reachable w'.

(** ** The forest of messages *)

(** [reaches s m n]: the [parent_id] chain of [m], followed through the rows
    of [s], reaches the id [n]; [m] is then a descendant of [n]. *)
Inductive reaches (s : list Message) : Message -> Z -> Prop :=
| reaches_parent m n : parent_id m = Some n -> reaches s m n
| reaches_up m p n :
    In p s -> parent_id m = Some (id p) -> reaches s p n -> reaches s m n.

(** No message is its own ancestor. *)
Definition acyclic (s : list Message) : Prop :=
  forall m, In m s -> ~ reaches s m (id m).

(** [id] is the key of the table. *)
Definition unique_ids (s : list Message) : Prop := List.NoDup (map id s).

(** The id [i] is [n] or the id of a descendant of [n]. *)
Definition under (s : list Message) (i n : Z) : Prop :=
  i = n \/ exists x, In x s /\ id x = i /\ reaches s x n.

(** The store an outcome leaves behind. *)
Definition final {A} (o : Outcome A) : option Store :=
  match o with
  | Returned _ db' => Some db'
  | Threw _ db' => Some db'
  | Starved => None
  end.

(** A bound on the calls issued by a cascade of nesting depth [depth] over
    a table of [width] rows: one select, one cascade for each child and one
    delete. *)
Fixpoint call_bound (width depth : nat) : nat :=
  match depth with
  | O => O
  | S d => 2 + width * call_bound width d
  end.

(** ** The invariant of a cascade

    A cascade is started on the rows [s0] for the id [top], with the calls
    [past] already in the log; [L] is what it has issued so far. *)

(** The deletes of all the children of [x] are among the calls [l]. *)
Definition kids_issued (s0 : list Message) (x : Z) (l : list Call) : Prop :=
  forall c, In c s0 -> parent_id c = Some x -> In (DeleteById (id c)) l.

Definition children_first (s0 : list Message) (L : list Call) : Prop :=
  forall l1 x l2, L = l1 ++ DeleteById x :: l2 -> kids_issued s0 x l1.

Record Inv (s0 : list Message) (top : Z) (past : list Call)
    (db : Store) (L : list Call) : Prop := mkInv {
  inv_calls : calls db = past ++ L;
  inv_incl : forall m, In m (rows db) -> In m s0;
  inv_logged : forall m, In m s0 -> ~ In m (rows db) -> In (DeleteById (id m)) L;
  inv_closed : forall m, In m s0 -> ~ In m (rows db) ->
               forall m', In m' (rows db) -> parent_id m' <> Some (id m);
  inv_first : children_first s0 L;
  inv_frame : forall m, In m s0 -> ~ In m (rows db) -> under s0 (id m) top
}.

(** The cascade on [n] is through: [n] and its children are gone and the
    delete of [n] is in the log. *)
Definition Done (n : Z) (db : Store) (L : list Call) : Prop :=
  (forall m, In m (rows db) -> id m <> n /\ parent_id m <> Some n) /\
  In (DeleteById n) L.

(** ** Orders on messages *)

(** Within one [parent_id]: a higher version first and, at equal versions,
    the later [created_at] first. *)
Definition lineage_order (a b : Message) : Prop :=
  version b < version a \/ (version a = version b /\ created_at b <= created_at a).

(** A list as the ordered select returns it. *)
Definition fetch_sorted (l : list Message) : Prop :=
  StronglySorted (fun a b => precedes a b = true) l.

(** ** Sample boards *)

(** A board holding the root message "Hello", and the page showing it. *)
Definition hello : Message := mkMessage 1 (of_ascii "Hello") None 1 100.

Definition board_hello : World :=
  mkWorld (setMessages [hello] initial_state) (mkStore [hello] 2 101 None []).

(** The page showing [hello] while the store is down. *)
Definition board_down : World :=
  mkWorld (setMessages [hello] initial_state) (mkStore [] 2 101 (Some O) []).

(** A thread: the root "Hello" and its edit, two replies under the root and
    a reply under the first of them. *)
Definition hello_v2 : Message := mkMessage 2 (of_ascii "Hello v2") None 2 101.
Definition reply_a : Message := mkMessage 3 (of_ascii "Reply A") (Some 1) 1 102.
Definition reply_b : Message := mkMessage 4 (of_ascii "Reply B") (Some 3) 1 103.
Definition reply_a2 : Message := mkMessage 5 (of_ascii "Reply A2") (Some 1) 2 104.

Definition thread_db : Store :=
  mkStore [hello; hello_v2; reply_a; reply_b; reply_a2] 6 105 None [].

(** The calls of the cascading delete of id 1 on [thread_db], and the store
    it leaves. *)
Definition thread_calls : list Call :=
  [SelectChildren 1; SelectChildren 3; SelectChildren 4; DeleteById 4;
   DeleteById 3; SelectChildren 5; DeleteById 5; DeleteById 1].

Definition thread_db_after : Store := mkStore [hello_v2] 6 105 None thread_calls.

(** The page after it has fetched [thread_db], and the same page with the
    branches of the root and of its first reply shown. *)
Definition thread_page : World := fetchMessages (mkWorld initial_state thread_db).

Definition thread_page_open : AppState :=
  toggleBranchesVisibility 3 (toggleBranchesVisibility 1 (ui thread_page)).

(** ** The page on its own

    The steps of the page when nothing else writes to the table; Edit and
    Branch Reply are clicked on a message that is on the page. *)
Inductive page_step : World -> World -> Prop :=
| page_notify w : page_step w (fetchMessages w)
| page_typed w text : page_step w (mkWorld (onChange text (ui w)) (db w))
| page_edit w m :
    In m (messages (ui w)) -> page_step w (mkWorld (clickEdit m (ui w)) (db w))
| page_branch_reply w m :
    In m (messages (ui w)) ->
    page_step w (mkWorld (clickBranchReply m (ui w)) (db w))
| page_send w : page_step w (clickSend w)
| page_key w enter : page_step w (handleKeyPress enter w)
| page_cancel w : page_step w (mkWorld (handleCancel (ui w)) (db w))
| page_toggle w i : page_step w (mkWorld (toggleBranchesVisibility i (ui w)) (db w))
| page_delete w fuel confirmed i w' :
    deleteMessage fuel confirmed i w = Some w' -> page_step w w'.

(** A root-level message with a version of 1 at least. *)
Definition root_version (m : Message) : Prop :=
  parent_id m = None /\ 1 <= version m.

(** All the messages in the table, on the page and in the selection are
    root-level versions. *)
Definition only_roots (w : World) : Prop :=
  (forall m, In m (rows (db w)) -> root_version m) /\
  (forall m, In m (messages (ui w)) -> root_version m) /\
  (forall m, selectedMessage (ui w) = Some m -> root_version m).

(** ** What the view shows *)

(** [shown msgs bv parentId level m d]: below the parent [parentId], rendered
    at depth [level], the message [m] stands at depth [d]: it is a row with
    that parent, or it is shown below such a row whose branches are visible. *)
Inductive shown (msgs : list Message) (bv : gmap Z bool)
  : option Z -> nat -> Message -> nat -> Prop :=
| shown_here parentId level m :
    In m msgs -> parent_id m = parentId -> shown msgs bv parentId level m level
| shown_below parentId level p m d :
    In p msgs -> parent_id p = parentId -> visible bv (id p) = true ->
    shown msgs bv (Some (id p)) (level + 1) m d ->
    shown msgs bv parentId level m d.

(** The rows below a parent: all the rows with that [parent_id] and their
    descendants; every row is below the root. *)
Definition below (msgs : list Message) (parentId : option Z) (m : Message) : Prop :=
  match parentId with
  | None => True
  | Some n => reaches msgs m n
  end.

(** A call of the cascade on [top]: a select of the children or a delete,
    of [top] or of the id of one of its descendants. *)
Definition within (s0 : list Message) (top : Z) (c : Call) : Prop :=
  exists x, (c = SelectChildren x \/ c = DeleteById x) /\ under s0 x top.

(** The page with the error banner up, over a store that answers. *)
Definition board_error : World :=
  mkWorld (setErrorMessage (Some "Error sending message. Please try again."%string)
             (ui board_hello))
          (db board_hello).

(** The thread on a store that is down. *)
Definition thread_db_down : Store :=
  mkStore [hello; hello_v2; reply_a; reply_b; reply_a2] 6 105 (Some O) [].

(** * Properties *)

(** Case analysis on the membership in an explicit list. *)
Ltac list_cases H :=
  simpl in H;
  repeat match type of H with
         | _ \/ _ => destruct H as [H|H]
         | False => destruct H
         end.


(** ** Numbers *)

Lemma round_double_small x : Z.abs x <= 2 ^ 53 -> round_double x = x.
Proof.
  intros H. unfold round_double.
  destruct (Z.leb_spec (Z.abs x) (2 ^ 53)); [reflexivity|lia].
Qed.

(** Above [2 ^ 53] the rounded value keeps the sign. *)
Lemma round_double_big x :
  2 ^ 53 < Z.abs x -> exists k, 0 < k /\ round_double x = Z.sgn x * k.
Proof.
  intros H. unfold round_double.
  destruct (Z.leb_spec (Z.abs x) (2 ^ 53)); [lia|].
  set (a := Z.abs x) in *.
  assert (Hp : 0 < 2 ^ 53) by (apply Z.pow_pos_nonneg; lia).
  assert (Ha : 0 < a) by lia.
  assert (Hl : 53 <= Z.log2 a).
  { rewrite <- (Z.log2_pow2 53) by lia. apply Z.log2_le_mono. lia. }
  set (e := Z.log2 a - 52).
  assert (He : 0 < 2 ^ e) by (apply Z.pow_pos_nonneg; unfold e; lia).
  assert (Hea : 2 ^ e <= a).
  { destruct (Z.log2_spec a Ha) as [Hlo _].
    apply Z.le_trans with (2 ^ Z.log2 a); [|exact Hlo].
    apply Z.pow_le_mono_r; unfold e; lia. }
  assert (Hq : 1 <= a / 2 ^ e) by (apply Z.div_le_lower_bound; lia).
  eexists. split; [|reflexivity].
  apply Z.mul_pos_pos; [|exact He].
  destruct ((2 * (a mod 2 ^ e) <? 2 ^ e)
            || ((2 * (a mod 2 ^ e) =? 2 ^ e) && Z.even (a / 2 ^ e))); lia.
Qed.

(** Rounding keeps the sign: a comparator that subtracts two numbers
    answers as the exact difference does. *)
Lemma round_double_pos x : 0 < round_double x <-> 0 < x.
Proof.
  destruct (Z.le_gt_cases (Z.abs x) (2 ^ 53)) as [H|H].
  - now rewrite (round_double_small x H).
  - destruct (round_double_big x H) as (k & Hk & ->).
    destruct (Z.sgn_spec x) as [[Hx ->]|[[Hx ->]|[Hx ->]]]; lia.
Qed.

Lemma js_sub_pos x y : (0 <? js_sub x y) = (0 <? x - y).
Proof.
  unfold js_sub. pose proof (round_double_pos (x - y)) as H.
  destruct (Z.ltb_spec 0 (round_double (x - y))), (Z.ltb_spec 0 (x - y));
    try reflexivity; lia.
Qed.

(** Below [2 ^ 53] in magnitude, adding one is exact. *)
Lemma js_add_safe v : Z.abs v < 2 ^ 53 -> js_add v 1 = v + 1.
Proof.
  intros H. unfold js_add. apply round_double_small. lia.
Qed.

Lemma js_add_one_ge v : 1 <= v -> 1 <= js_add v 1.
Proof.
  intros H. unfold js_add.
  destruct (Z.le_gt_cases (Z.abs (v + 1)) (2 ^ 53)) as [Hs|Hb].
  - rewrite (round_double_small _ Hs). lia.
  - destruct (round_double_big _ Hb) as (k & Hk & ->).
    rewrite Z.sgn_pos by lia. lia.
Qed.

(** From [2 ^ 53] on, adding one may give the number back. *)
Example js_add_beyond :
  js_add (2 ^ 53) 1 = 2 ^ 53 /\ js_add (2 ^ 53 + 2) 1 = 2 ^ 53 + 4.
Proof. split; reflexivity. Qed.

(** ** Trimming *)

Lemma trimStart_blank s : blank s -> trimStart s = [].
Proof.
  induction 1 as [|c s Hc _ IH]; simpl; [reflexivity|].
  now rewrite Hc.
Qed.

Lemma trimStart_nil_blank s : trimStart s = [] -> blank s.
Proof.
  induction s as [|c s IH]; simpl; intros H; [constructor|].
  destruct (is_white_space c) eqn:Hc; [|discriminate].
  constructor; [exact Hc | exact (IH H)].
Qed.

Lemma blank_rev s : blank (rev s) -> blank s.
Proof.
  unfold blank. rewrite !List.Forall_forall. intros H c Hc.
  apply H. now apply in_rev in Hc.
Qed.

Lemma trimStart_head s c s' : trimStart s = c :: s' -> is_white_space c = false.
Proof.
  induction s as [|d s IH]; simpl; [discriminate|].
  destruct (is_white_space d) eqn:Hd; [exact IH|].
  intros H. injection H as -> _. exact Hd.
Qed.

Lemma trim_blank s : blank s -> trim s = [].
Proof.
  intros H. unfold trim, trimEnd. now rewrite (trimStart_blank s H).
Qed.

Lemma trim_nil_blank s : trim s = [] -> blank s.
Proof.
  unfold trim, trimEnd. intros H.
  assert (Hr : trimStart (rev (trimStart s)) = []).
  { destruct (trimStart (rev (trimStart s))) as [|c0 l0]; [reflexivity|].
    simpl in H. now destruct (rev l0). }
  apply trimStart_nil_blank, blank_rev in Hr.
  destruct (trimStart s) as [|c s'] eqn:Hs.
  - now apply trimStart_nil_blank.
  - apply trimStart_head in Hs. inversion Hr; congruence.
Qed.

Lemma is_empty_trim s : is_empty (trim s) = true <-> blank s.
Proof.
  split.
  - intros H. apply trim_nil_blank. now destruct (trim s).
  - intros H. now rewrite (trim_blank s H).
Qed.

Lemma is_empty_trim_false s : ~ blank s -> is_empty (trim s) = false.
Proof.
  intros H. destruct (is_empty (trim s)) eqn:E; [|reflexivity].
  now apply is_empty_trim in E.
Qed.

(** ** The store calls *)

Lemma issue_fst c db : fst (issue c db) = answers db.
Proof. unfold issue, answers. now destruct (uptime db) as [[|k]|]. Qed.

Lemma issue_rows c db : rows (snd (issue c db)) = rows db.
Proof. unfold issue. now destruct (uptime db) as [[|k]|]. Qed.

Lemma issue_calls c db : calls (snd (issue c db)) = calls db ++ [c].
Proof. unfold issue. now destruct (uptime db) as [[|k]|]. Qed.

Lemma issue_next_id c db : next_id (snd (issue c db)) = next_id db.
Proof. unfold issue. now destruct (uptime db) as [[|k]|]. Qed.

Lemma issue_clock c db : clock (snd (issue c db)) = clock db.
Proof. unfold issue. now destruct (uptime db) as [[|k]|]. Qed.

Lemma insert_spec c p v db :
  let '(r, db') := insert c p v db in
  calls db' = calls db ++ [Insert c p v] /\
  (if answers db
   then error r = None /\
        rows db' = rows db ++ [mkMessage (next_id db) c p v (clock db)]
   else error r <> None /\ rows db' = rows db).
Proof.
  unfold insert.
  pose proof (issue_fst (Insert c p v) db) as Hf.
  pose proof (issue_rows (Insert c p v) db) as Hr.
  pose proof (issue_calls (Insert c p v) db) as Hc.
  pose proof (issue_next_id (Insert c p v) db) as Hn.
  pose proof (issue_clock (Insert c p v) db) as Hk.
  destruct (issue (Insert c p v) db) as [ok db1]; simpl in *.
  subst ok. destruct (answers db); simpl.
  - rewrite Hr, Hn, Hk. auto.
  - split; [exact Hc|]. split; [discriminate|exact Hr].
Qed.

(** ** Sending, editing, replying *)

Lemma sendMessage_blank parentMessage w :
  blank (input (ui w)) -> sendMessage parentMessage w = w.
Proof.
  intros H. unfold sendMessage.
  apply is_empty_trim in H. now rewrite H.
Qed.

Lemma sendMessage_store parentMessage w :
  ~ blank (input (ui w)) ->
  let p := match parentMessage with Some m => parent_id m | None => None end in
  let v := match parentMessage with Some m => js_add (version m) 1 | None => 1 end in
  calls (db (sendMessage parentMessage w)) = calls (db w) ++ [Insert (input (ui w)) p v] /\
  rows (db (sendMessage parentMessage w)) =
    rows (db w) ++
    (if answers (db w)
     then [mkMessage (next_id (db w)) (input (ui w)) p v (clock (db w))]
     else []).
Proof.
  intros H p v. unfold sendMessage.
  rewrite (is_empty_trim_false _ H). fold p v.
  pose proof (insert_spec (input (ui w)) p v (db w)) as Hi.
  destruct (insert (input (ui w)) p v (db w)) as [r db'].
  destruct Hi as [Hc Hr].
  destruct (answers (db w)).
  - destruct Hr as [He Hr]. rewrite He. simpl. auto.
  - destruct Hr as [He Hr]. destruct (error r); [|congruence].
    simpl. rewrite app_nil_r. auto.
Qed.

(** The Edit and the Branch Reply buttons lead to the same call of
    [sendMessage]: nothing tells it which of the two was pressed. *)
Lemma branch_reply_is_edit existing text w :
  branch_reply existing text w = edit existing text w.
Proof. reflexivity. Qed.

(** C1, at a concrete input: a branch reply "Reply A" to the root message
    [hello] (id 1, version 1) inserts a row whose [parent_id] is that of
    [hello] (null) and whose [version] is 2, where the specification asks
    for [parent_id = 1] and [version = 1]. *)
Theorem branch_reply_inserts_next_version :
  rows (db (branch_reply hello (of_ascii "Reply A") board_hello)) =
    [hello; mkMessage 2 (of_ascii "Reply A") None 2 101] /\
  calls (db (branch_reply hello (of_ascii "Reply A") board_hello)) =
    [Insert (of_ascii "Reply A") None 2].
Proof. split; reflexivity. Qed.

(** C4: editing an existing message [existing], whose version is a safe
    integer (below [2 ^ 53] in magnitude, where adding one is exact), with a
    text that is not blank issues one store call, the insert of [text] with
    the [parent_id] of [existing] and its [version] plus one; the table is
    the old one followed by that new row (by nothing when the store refuses
    the insert), so [existing] is still there, as it was; the snapshot is
    not touched. *)
Theorem edit_appends_next_version (existing : Message) (text : jsstring) (w : World) :
  In existing (rows (db w)) ->
  Z.abs (version existing) < 2 ^ 53 ->
  ~ blank text ->
  calls (db (edit existing text w)) =
    calls (db w) ++ [Insert text (parent_id existing) (version existing + 1)] /\
  rows (db (edit existing text w)) =
    rows (db w) ++
    (if answers (db w)
     then [mkMessage (next_id (db w)) text (parent_id existing)
                     (version existing + 1) (clock (db w))]
     else []) /\
  In existing (rows (db (edit existing text w))) /\
  messages (ui (edit existing text w)) = messages (ui w).
Proof.
  intros Hin Hsafe Hnb. unfold edit, clickSend.
  set (w1 := mkWorld (onChange text (clickEdit existing (ui w))) (db w)).
  assert (Hinput : input (ui w1) = text) by reflexivity.
  assert (Hsel : selectedMessage (ui w1) = Some existing) by reflexivity.
  rewrite Hsel.
  destruct (sendMessage_store (Some existing) w1) as [Hc Hr].
  { now rewrite Hinput. }
  rewrite Hinput, (js_add_safe _ Hsafe) in Hc, Hr.
  change (db w1) with (db w) in Hc, Hr.
  repeat split; [exact Hc | exact Hr | rewrite Hr; apply in_or_app; now left |].
  unfold sendMessage. rewrite Hinput, (is_empty_trim_false _ Hnb).
  destruct (insert _ _ _ _) as [r db']. now destruct (error r).
Qed.

Lemma edit_appends_next_version_witness :
  rows (db (edit hello (of_ascii "Hello v2") board_hello)) =
    [hello; mkMessage 2 (of_ascii "Hello v2") None 2 101].
Proof.
  refine (proj1 (proj2 (edit_appends_next_version hello (of_ascii "Hello v2") board_hello _ _ _))).
  - simpl. now left.
  - reflexivity.
  - intros H. inversion H as [|c s Hc Hs]. discriminate Hc.
Defined.

(** C6: when the text in the input box is empty or white space only,
    [sendMessage] (send and edit alike) returns at once: the page and the
    store are what they were, so no call is issued, no row is added and no
    error message is set. *)
Theorem sendMessage_blank_is_noop (parentMessage : option Message) (w : World) :
  blank (input (ui w)) ->
  sendMessage parentMessage w = w /\
  calls (db (sendMessage parentMessage w)) = calls (db w) /\
  rows (db (sendMessage parentMessage w)) = rows (db w) /\
  errorMessage (ui (sendMessage parentMessage w)) = errorMessage (ui w).
Proof.
  intros H. rewrite (sendMessage_blank parentMessage w H). auto.
Qed.

Lemma sendMessage_blank_is_noop_witness :
  sendMessage (Some hello)
    (mkWorld (onChange (of_ascii "  ") (ui board_hello)) (db board_hello)) =
  mkWorld (onChange (of_ascii "  ") (ui board_hello)) (db board_hello).
Proof.
  refine (proj1 (sendMessage_blank_is_noop (Some hello)
    (mkWorld (onChange (of_ascii "  ") (ui board_hello)) (db board_hello)) _)).
  repeat constructor.
Defined.

(** ** Fetching *)

(** C8: when the refetch fails (the store's response carries an error), the
    error message of the page is set and the snapshot is the previous one. *)
Theorem fetchMessages_failure_keeps_snapshot (w : World) :
  error (fst (select_all (db w))) <> None ->
  messages (ui (fetchMessages w)) = messages (ui w) /\
  errorMessage (ui (fetchMessages w)) =
    Some "Error fetching messages. Please try again."%string.
Proof.
  intros H. unfold fetchMessages.
  destruct (select_all (db w)) as [r db']. simpl in H.
  destruct (error r); [split; reflexivity | congruence].
Qed.

Lemma fetchMessages_failure_keeps_snapshot_witness :
  messages (ui (fetchMessages board_down)) = [hello] /\
  errorMessage (ui (fetchMessages board_down)) =
    Some "Error fetching messages. Please try again."%string.
Proof.
  apply (fetchMessages_failure_keeps_snapshot board_down).
  simpl. discriminate.
Defined.

(** ** Visibility *)

Lemma map_option_ext {A B} (f g : A -> option B) (l : list A) :
  (forall x, f x = g x) -> map_option f l = map_option g l.
Proof.
  intros H. induction l as [|x l IH]; simpl; [reflexivity|].
  now rewrite H, IH.
Qed.

(** Rendering reads the visibility map through [visible] only. *)
Lemma renderMessages_ext fuel msgs (bv bv' : gmap Z bool) :
  (forall i, visible bv i = visible bv' i) ->
  forall parentId level,
    renderMessages fuel msgs bv parentId level =
    renderMessages fuel msgs bv' parentId level.
Proof.
  intros H. induction fuel as [|fuel IH]; intros parentId level; simpl;
    [reflexivity|].
  apply map_option_ext. intros m.
  now rewrite H, IH.
Qed.

Lemma visible_toggle_twice (bv : gmap Z bool) (i j : Z) :
  visible (<[i := negb (visible (<[i := negb (visible bv i)]> bv) i)]>
             (<[i := negb (visible bv i)]> bv)) j = visible bv j.
Proof.
  unfold visible.
  destruct (decide (i = j)) as [->|Hne].
  - rewrite !lookup_insert_eq. rewrite negb_involutive.
    now destruct (bv !! j).
  - now rewrite !lookup_insert_ne.
Qed.

(** C9: for every snapshot, visibility map and message id, toggling the
    branches of that message twice leaves the view projection, and the
    rendering below any parent, as they were. *)
Theorem toggle_twice_same_view (fuel : nat) (st : AppState) (i : Z) :
  view fuel (toggleBranchesVisibility i (toggleBranchesVisibility i st)) =
    view fuel st /\
  forall parentId level,
    renderMessages fuel
      (messages (toggleBranchesVisibility i (toggleBranchesVisibility i st)))
      (branchesVisible (toggleBranchesVisibility i (toggleBranchesVisibility i st)))
      parentId level =
    renderMessages fuel (messages st) (branchesVisible st) parentId level.
Proof.
  assert (H : forall parentId level,
    renderMessages fuel
      (messages (toggleBranchesVisibility i (toggleBranchesVisibility i st)))
      (branchesVisible (toggleBranchesVisibility i (toggleBranchesVisibility i st)))
      parentId level =
    renderMessages fuel (messages st) (branchesVisible st) parentId level).
  { intros parentId level. simpl.
    apply renderMessages_ext. intros j. apply visible_toggle_twice. }
  split; [|exact H].
  unfold view. now rewrite H.
Qed.

(** ** Ordering of the snapshot and of the rendered siblings *)

Lemma precedes_spec a b :
  precedes a b = true <->
  match parent_id a, parent_id b with
  | None, None => lineage_order a b
  | None, Some _ => True
  | Some _, None => False
  | Some p, Some q => q < p \/ (p = q /\ lineage_order a b)
  end.
Proof.
  unfold precedes, fetch_order, desc_nullable, then_by, desc, lineage_order.
  destruct (parent_id a) as [p|], (parent_id b) as [q|];
    try (split; [auto; discriminate | reflexivity]);
    try (destruct (Z.compare_spec q p));
    destruct (Z.compare_spec (version b) (version a));
    destruct (Z.compare_spec (created_at b) (created_at a));
    split; intros; try reflexivity; try discriminate; try lia; auto.
Qed.

Lemma precedes_total a b : precedes a b = false -> precedes b a = true.
Proof.
  intros H. apply precedes_spec.
  assert (Hn : ~ precedes a b = true) by congruence.
  rewrite precedes_spec in Hn. unfold lineage_order in *.
  destruct (parent_id a) as [p|], (parent_id b) as [q|]; try tauto; lia.
Qed.

Lemma precedes_trans a b c :
  precedes a b = true -> precedes b c = true -> precedes a c = true.
Proof.
  rewrite !precedes_spec. unfold lineage_order.
  destruct (parent_id a) as [p|], (parent_id b) as [q|], (parent_id c) as [r|];
    try tauto; lia.
Qed.

Lemma place_In x l m : In m (place x l) <-> m = x \/ In m l.
Proof.
  induction l as [|y l IH]; simpl.
  - intuition.
  - destruct (precedes x y); simpl; [intuition|]. rewrite IH. intuition.
Qed.

Lemma place_sorted x l : fetch_sorted l -> fetch_sorted (place x l).
Proof.
  unfold fetch_sorted. induction 1 as [|y l Hs IH Hy]; simpl.
  - repeat constructor.
  - destruct (precedes x y) eqn:Hxy.
    + constructor; [now constructor|].
      constructor; [exact Hxy|].
      rewrite List.Forall_forall in *. intros m Hm.
      eapply precedes_trans; eauto.
    + constructor; [exact IH|].
      rewrite List.Forall_forall in *. intros m Hm.
      apply place_In in Hm as [->|Hm]; [now apply precedes_total | auto].
Qed.

Lemma order_rows_sorted l : fetch_sorted (order_rows l).
Proof.
  induction l as [|x l IH]; simpl; [constructor | now apply place_sorted].
Qed.

Lemma order_rows_In l m : In m (order_rows l) <-> In m l.
Proof.
  induction l as [|x l IH]; simpl; [tauto|].
  rewrite place_In, IH. intuition.
Qed.

Lemma parent_is_true parentId m : parent_is parentId m = true <-> parent_id m = parentId.
Proof.
  unfold parent_is. destruct (parent_id m) as [p|], parentId as [q|];
    try (split; [discriminate | congruence]); try tauto.
  rewrite Z.eqb_eq. split; congruence.
Qed.

Lemma precedes_same_parent a b :
  parent_id a = parent_id b -> precedes a b = true -> lineage_order a b.
Proof.
  intros Hp H. apply precedes_spec in H. rewrite Hp in H.
  destruct (parent_id b); [|exact H].
  destruct H as [H|[_ H]]; [lia | exact H].
Qed.

(** The siblings under one parent, taken from an ordered snapshot, are in
    lineage order before the page sorts them. *)
Lemma filter_lineage_sorted parentId l :
  fetch_sorted l ->
  StronglySorted lineage_order (List.filter (parent_is parentId) l).
Proof.
  unfold fetch_sorted. induction 1 as [|x l Hs IH Hx]; simpl; [constructor|].
  destruct (parent_is parentId x) eqn:Hpx; [|exact IH].
  constructor; [exact IH|].
  rewrite List.Forall_forall in *. intros m Hm.
  apply List.filter_In in Hm as [Hm Hpm].
  apply precedes_same_parent; [|auto].
  apply parent_is_true in Hpx, Hpm. congruence.
Qed.

Section js_sort_facts.
Context {A : Type} (cmp : A -> A -> Z).

Lemma sort_insert_In x l y : In y (sort_insert cmp x l) <-> y = x \/ In y l.
Proof.
  induction l as [|z l IH]; simpl.
  - intuition.
  - destruct (0 <? cmp x z); simpl; [rewrite IH|]; intuition.
Qed.

Lemma js_sort_In l y : In y (js_sort cmp l) <-> In y l.
Proof.
  induction l as [|x l IH]; simpl; [tauto|].
  rewrite sort_insert_In, IH. intuition.
Qed.

(** A list whose elements never compare above a later one is left as it
    is: the sort is stable. *)
Lemma js_sort_sorted_id l :
  StronglySorted (fun a b => cmp a b <= 0) l -> js_sort cmp l = l.
Proof.
  induction 1 as [|x l Hs IH Hx]; simpl; [reflexivity|].
  rewrite IH. destruct l as [|y l]; simpl; [reflexivity|].
  inversion Hx as [|? ? Hxy _]; subst.
  destruct (Z.ltb_spec 0 (cmp x y)); [lia | reflexivity].
Qed.
End js_sort_facts.

Lemma js_sub_nonpos x y : x <= y -> js_sub x y <= 0.
Proof.
  intros H. unfold js_sub. pose proof (round_double_pos (x - y)). lia.
Qed.

Lemma lineage_sorted_by_version l :
  StronglySorted lineage_order l ->
  StronglySorted (fun a b => js_sub (version b) (version a) <= 0) l.
Proof.
  induction 1 as [|x l Hs IH Hx]; constructor; [exact IH|].
  eapply List.Forall_impl; [|exact Hx].
  unfold lineage_order. intros a Ha. apply js_sub_nonpos. lia.
Qed.

Lemma sortedMessages_fetch_sorted msgs parentId :
  fetch_sorted msgs ->
  sortedMessages msgs parentId = List.filter (parent_is parentId) msgs.
Proof.
  intros H. unfold sortedMessages.
  apply js_sort_sorted_id, lineage_sorted_by_version, filter_lineage_sorted, H.
Qed.

(** Only a fetch replaces the snapshot, and what it installs is ordered. *)
Lemma fetchMessages_sorted w :
  fetch_sorted (messages (ui w)) -> fetch_sorted (messages (ui (fetchMessages w))).
Proof.
  intros H. unfold fetchMessages, select_all.
  destruct (issue SelectAll (db w)) as [[|] db1]; simpl; [|exact H].
  apply order_rows_sorted.
Qed.

Lemma sendMessage_messages parentMessage w :
  messages (ui (sendMessage parentMessage w)) = messages (ui w).
Proof.
  unfold sendMessage. destruct (is_empty _); [reflexivity|].
  destruct (insert _ _ _ _) as [r db']. now destruct (error r).
Qed.

Lemma step_sorted w w' :
  step w w' -> fetch_sorted (messages (ui w)) -> fetch_sorted (messages (ui w')).
Proof.
  intros Hstep H.
  destruct Hstep as [w|w text|w m|w m|w|w enter|w|w i|w fuel confirmed i w' Hd|w db'];
    simpl; try exact H.
  - now apply fetchMessages_sorted.
  - unfold clickSend. now rewrite sendMessage_messages.
  - unfold handleKeyPress. destruct enter; [|exact H].
    now rewrite sendMessage_messages.
  - unfold deleteMessage in Hd. destruct confirmed; simpl in Hd.
    + destruct (deleteMessageRecursive fuel i (db w)) as [[] db'|e db'|];
        [| |discriminate]; injection Hd as <-; [|exact H].
      now apply fetchMessages_sorted.
    + now injection Hd as <-.
Qed.

Lemma reachable_sorted w : reachable w -> fetch_sorted (messages (ui w)).
Proof.
  induction 1 as [db0|w w' _ IH Hstep]; [constructor|].
  eapply step_sorted; eauto.
Qed.

Lemma map_option_map {A B} (f : A -> option B) (g : B -> A) l :
  (forall x y, f x = Some y -> g y = x) ->
  forall ys, map_option f l = Some ys -> map g ys = l.
Proof.
  intros Hg. induction l as [|x l IH]; simpl; intros ys H.
  - now injection H as <-.
  - destruct (f x) as [y|] eqn:Hx; [|discriminate].
    destruct (map_option f l) as [ys'|]; [|discriminate].
    injection H as <-. simpl. now rewrite (Hg x y Hx), (IH ys').
Qed.

(** The cards [renderMessages] emits for a parent are its sorted siblings. *)
Lemma renderMessages_cards fuel msgs bv parentId level cards :
  renderMessages fuel msgs bv parentId level = Some cards ->
  map card_message cards = sortedMessages msgs parentId.
Proof.
  destruct fuel as [|fuel]; [discriminate|]. simpl.
  apply map_option_map. intros x y.
  destruct (visible bv (id x)); [|now intros [= <-]].
  destruct (renderMessages fuel msgs bv (Some (id x)) (level + 1));
    [now intros [= <-] | discriminate].
Qed.

(** C5: in every state the page can reach, and for every [parent_id], the
    siblings [renderMessages] lists under that parent (the snapshot rows with
    that [parent_id]) come by descending [version] and, at equal versions,
    by descending [created_at]. *)
Theorem rendered_siblings_ordered (w : World) (parentId : option Z) :
  reachable w ->
  StronglySorted lineage_order (sortedMessages (messages (ui w)) parentId) /\
  (forall m, In m (sortedMessages (messages (ui w)) parentId) <->
             In m (messages (ui w)) /\ parent_id m = parentId) /\
  (forall fuel level cards,
     renderMessages fuel (messages (ui w)) (branchesVisible (ui w)) parentId level
       = Some cards ->
     map card_message cards = sortedMessages (messages (ui w)) parentId).
Proof.
  intros Hr. apply reachable_sorted in Hr. split; [|split].
  - rewrite (sortedMessages_fetch_sorted _ _ Hr).
    now apply filter_lineage_sorted.
  - intros m. unfold sortedMessages.
    rewrite js_sort_In, List.filter_In, parent_is_true. tauto.
  - intros fuel level cards. apply renderMessages_cards.
Qed.

Lemma rendered_siblings_ordered_witness :
  StronglySorted lineage_order (sortedMessages (messages (ui thread_page)) (Some 1)).
Proof.
  refine (proj1 (rendered_siblings_ordered thread_page (Some 1) _)).
  apply (reachable_step (mkWorld initial_state thread_db)).
  - apply reachable_mount.
  - apply step_notify.
Defined.

(** The siblings under the root of the thread, and the whole view once the
    branches of ids 1 and 3 are shown. *)
Example thread_siblings :
  sortedMessages (messages (ui thread_page)) (Some 1) = [reply_a2; reply_a].
Proof. reflexivity. Qed.

Example thread_view :
  view 3 thread_page_open =
    Some [(hello_v2, 0%nat); (hello, 0%nat); (reply_a2, 1%nat); (reply_a, 1%nat);
          (reply_b, 2%nat)].
Proof. reflexivity. Qed.

Example thread_view_closed :
  view 3 (ui thread_page) = Some [(hello_v2, 0%nat); (hello, 0%nat)].
Proof. reflexivity. Qed.

(** ** Cascading delete *)

Lemma deleteMessageRecursive_S fuel n db :
  deleteMessageRecursive (S fuel) n db =
  if answers db then
    match for_of (map id (List.filter (parent_is (Some n)) (rows db)))
                 (deleteMessageRecursive fuel)
                 (snd (issue (SelectChildren n) db)) with
    | Returned _ db2 =>
        if answers db2
        then Returned tt
               (with_rows (List.filter (fun m => negb (id m =? n)) (rows db2))
                          (snd (issue (DeleteById n) db2)))
        else Threw Unavailable (snd (issue (DeleteById n) db2))
    | Threw e db2 => Threw e db2
    | Starved => Starved
    end
  else Threw Unavailable (snd (issue (SelectChildren n) db)).
Proof.
  cbn [deleteMessageRecursive]. unfold bind, await, select_children.
  pose proof (issue_fst (SelectChildren n) db) as Hf.
  pose proof (issue_rows (SelectChildren n) db) as Hr.
  destruct (issue (SelectChildren n) db) as [ok db1]. simpl in Hf, Hr. subst ok.
  destruct (answers db); [|reflexivity].
  cbn [error data succeeded snd]. rewrite Hr.
  assert (Hloop :
    match map id (List.filter (parent_is (Some n)) (rows db)) with
    | [] => ret tt
    | c :: cs => for_of (c :: cs) (deleteMessageRecursive fuel)
    end db1 =
    for_of (map id (List.filter (parent_is (Some n)) (rows db)))
           (deleteMessageRecursive fuel) db1).
  { now destruct (map id (List.filter (parent_is (Some n)) (rows db))). }
  rewrite Hloop.
  destruct (for_of _ _ db1) as [[] db2|e db2|]; try reflexivity.
  unfold delete_by_id.
  pose proof (issue_fst (DeleteById n) db2) as Hf2.
  pose proof (issue_rows (DeleteById n) db2) as Hr2.
  destruct (issue (DeleteById n) db2) as [ok2 db3]. simpl in Hf2, Hr2. subst ok2.
  destruct (answers db2); simpl; [now rewrite Hr2 | reflexivity].
Qed.

Lemma for_of_cons {A} (x : A) l body db :
  for_of (x :: l) body db =
  match body x db with
  | Returned _ db1 => for_of l body db1
  | Threw e db1 => Threw e db1
  | Starved => Starved
  end.
Proof. reflexivity. Qed.

Lemma reaches_incl s s' m n :
  (forall x, In x s -> In x s') -> reaches s m n -> reaches s' m n.
Proof.
  intros Hincl. induction 1 as [m n Hp|m p n Hin Hp _ IH].
  - now apply reaches_parent.
  - eapply reaches_up; eauto.
Qed.

Lemma reaches_through s x m n :
  In x s -> parent_id x = Some n -> reaches s m (id x) -> reaches s m n.
Proof.
  intros Hx Hp H. remember (id x) as k eqn:Hk.
  induction H as [m k Hm|m p k Hin Hm _ IH]; subst k.
  - apply (reaches_up s m x n Hx Hm). now apply reaches_parent.
  - apply (reaches_up s m p n Hin Hm). now apply IH.
Qed.

Lemma under_child s n top x :
  under s n top -> In x s -> parent_id x = Some n -> under s (id x) top.
Proof.
  intros Hu Hx Hp. right. exists x. split; [exact Hx|]. split; [reflexivity|].
  destruct Hu as [Heq|(y & Hy & Heq & Hr)].
  - apply reaches_parent. congruence.
  - apply (reaches_up s x y top Hy); [congruence | exact Hr].
Qed.

Lemma snoc_split {A} (L : list A) (c : A) l1 (d : A) l2 :
  L ++ [c] = l1 ++ d :: l2 ->
  (l1 = L /\ d = c /\ l2 = []) \/ exists l2', l2 = l2' ++ [c] /\ L = l1 ++ d :: l2'.
Proof.
  destruct l2 as [|e l2 _] using rev_ind; intros H.
  - apply app_inj_tail in H as [-> ->]. now left.
  - right. exists l2. change (l1 ++ d :: l2 ++ [e]) with (l1 ++ (d :: l2) ++ [e]) in H.
    rewrite app_assoc in H. apply app_inj_tail in H as [-> ->]. auto.
Qed.

Lemma children_spec n s c :
  In c (map id (List.filter (parent_is (Some n)) s)) <->
  exists x, In x s /\ id x = c /\ parent_id x = Some n.
Proof.
  rewrite in_map_iff. split.
  - intros (x & <- & Hx). apply List.filter_In in Hx as [Hx Hp].
    apply parent_is_true in Hp. eauto.
  - intros (x & Hx & <- & Hp). exists x. split; [reflexivity|].
    apply List.filter_In. split; [exact Hx|]. now apply parent_is_true.
Qed.

Lemma without_In n s m :
  In m (List.filter (fun m => negb (id m =? n)) s) <-> In m s /\ id m <> n.
Proof.
  rewrite List.filter_In, negb_true_iff, Z.eqb_neq. tauto.
Qed.

(** The invariant holds along every cascade. *)
Section cascade_invariant.
Variables (s0 : list Message) (top : Z) (past : list Call).

Lemma children_first_snoc L c :
  children_first s0 L ->
  (forall x, c = DeleteById x -> kids_issued s0 x L) ->
  children_first s0 (L ++ [c]).
Proof.
  intros HL Hc l1 x l2 Heq.
  apply snoc_split in Heq as [(-> & Hd & _)|(l2' & _ & ->)].
  - apply Hc. now symmetry.
  - eapply HL; reflexivity.
Qed.

Lemma Inv_select db L n :
  Inv s0 top past db L ->
  Inv s0 top past (snd (issue (SelectChildren n) db)) (L ++ [SelectChildren n]).
Proof.
  intros [Hc Hi Hl Hcl Hf Hfr].
  split; rewrite ?issue_rows, ?issue_calls; auto.
  - now rewrite Hc, app_assoc.
  - intros m Hm Hn. apply in_or_app. left. auto.
  - apply children_first_snoc; [exact Hf | discriminate].
Qed.

Lemma Done_later n db L db' L' :
  Done n db L -> (forall m, In m (rows db') -> In m (rows db)) ->
  Done n db' (L ++ L').
Proof.
  intros [Hr Hl] Hincl. split; [auto|]. apply in_or_app. now left.
Qed.

(** Issuing the delete of [n] once none of its children is left: the
    invariant holds whether the store refuses the call or carries it out. *)
Lemma Inv_delete db L n :
  Inv s0 top past db L -> under s0 n top ->
  (forall c, In c s0 -> parent_id c = Some n -> ~ In c (rows db)) ->
  Inv s0 top past (snd (issue (DeleteById n) db)) (L ++ [DeleteById n]) /\
  Inv s0 top past (with_rows (List.filter (fun m => negb (id m =? n)) (rows db))
                 (snd (issue (DeleteById n) db)))
      (L ++ [DeleteById n]) /\
  Done n (with_rows (List.filter (fun m => negb (id m =? n)) (rows db))
                    (snd (issue (DeleteById n) db)))
       (L ++ [DeleteById n]).
Proof.
  intros [Hc Hi Hl Hcl Hf Hfr] Hu Hgone.
  assert (Hfirst : children_first s0 (L ++ [DeleteById n])).
  { apply children_first_snoc; [exact Hf|].
    intros x [= <-] c Hc0 Hp. apply Hl; auto. }
  split; [|split].
  - split; rewrite ?issue_rows, ?issue_calls; auto.
    + now rewrite Hc, app_assoc.
    + intros m Hm Hn. apply in_or_app. left. auto.
  - split; cbn [rows calls with_rows]; rewrite ?issue_calls; auto.
    + now rewrite Hc, app_assoc.
    + intros m Hm. apply without_In in Hm as [Hm _]. auto.
    + intros m Hm Hn. apply in_or_app.
      destruct (Z.eq_dec (id m) n) as [->|Hne]; [right; now left|].
      left. apply Hl; [exact Hm|]. intros Hin. apply Hn, without_In. auto.
    + intros m Hm Hn m' Hm' Hp. apply without_In in Hm' as [Hm' Hne'].
      destruct (Z.eq_dec (id m) n) as [Heq|Hne].
      * rewrite Heq in Hp. exact (Hgone m' (Hi m' Hm') Hp Hm').
      * apply (Hcl m Hm) with (m' := m'); auto.
        intros Hin. apply Hn, without_In. auto.
    + intros m Hm Hn.
      destruct (Z.eq_dec (id m) n) as [->|Hne]; [exact Hu|].
      apply Hfr; [exact Hm|]. intros Hin. apply Hn, without_In. auto.
  - split; cbn [rows with_rows].
    + intros m Hm. apply without_In in Hm as [Hm Hne]. split; [exact Hne|].
      intros Hp. exact (Hgone m (Hi m Hm) Hp Hm).
    + apply in_or_app. right. now left.
Qed.

Lemma cascade_invariant fuel :
  forall n db L o db',
    Inv s0 top past db L -> under s0 n top ->
    deleteMessageRecursive fuel n db = o -> final o = Some db' ->
    exists L',
      Inv s0 top past db' (L ++ L') /\
      (forall m, In m (rows db') -> In m (rows db)) /\
      (forall a, o = Returned a db' -> Done n db' (L ++ L')).
Proof.
  induction fuel as [|fuel IH]; intros n db L o db' HI Hu Hrun Hfin.
  { subst o. discriminate. }
  assert (Hloop : forall cs db1 L1 o1 db2,
    Inv s0 top past db1 L1 -> (forall c, In c cs -> under s0 c top) ->
    for_of cs (deleteMessageRecursive fuel) db1 = o1 -> final o1 = Some db2 ->
    exists L',
      Inv s0 top past db2 (L1 ++ L') /\
      (forall m, In m (rows db2) -> In m (rows db1)) /\
      (forall a, o1 = Returned a db2 -> forall c, In c cs -> Done c db2 (L1 ++ L'))).
  { induction cs as [|c cs IHcs]; intros db1 L1 o1 db2 HI1 Hcs Hrun1 Hfin1.
    - simpl in Hrun1. unfold ret in Hrun1. subst o1. injection Hfin1 as <-.
      exists []. rewrite app_nil_r. split; [exact HI1|]. split; [auto|].
      intros _ _ c [].
    - rewrite for_of_cons in Hrun1.
      destruct (deleteMessageRecursive fuel c db1) as [[] dbc|e dbc|] eqn:Hc.
      + destruct (IH c db1 L1 _ dbc HI1 (Hcs c (or_introl eq_refl)) Hc eq_refl)
          as (Lc & HIc & Hinc & Hdone).
        destruct (IHcs dbc (L1 ++ Lc) o1 db2 HIc
                    (fun c' Hc' => Hcs c' (or_intror Hc')) Hrun1 Hfin1)
          as (Lr & HIr & Hinr & Hdoner).
        exists (Lc ++ Lr). rewrite app_assoc.
        split; [exact HIr|]. split; [auto|].
        intros a Ho c' [<-|Hc']; [|eauto].
        apply Done_later with (db := dbc); [now apply (Hdone tt) | exact Hinr].
      + subst o1. injection Hfin1 as <-.
        destruct (IH c db1 L1 _ dbc HI1 (Hcs c (or_introl eq_refl)) Hc eq_refl)
          as (Lc & HIc & Hinc & _).
        exists Lc. split; [exact HIc|]. split; [exact Hinc|]. discriminate.
      + subst o1. discriminate. }
  rewrite deleteMessageRecursive_S in Hrun.
  pose proof (Inv_select db L n HI) as HIs.
  destruct (answers db).
  2:{ subst o. injection Hfin as <-. exists [SelectChildren n].
      split; [exact HIs|]. split; [now rewrite issue_rows | discriminate]. }
  set (cs := map id (List.filter (parent_is (Some n)) (rows db))) in *.
  set (db1 := snd (issue (SelectChildren n) db)) in *.
  assert (Hrows1 : rows db1 = rows db) by apply issue_rows.
  assert (Hcs : forall c, In c cs -> under s0 c top).
  { intros c Hc. apply children_spec in Hc as (x & Hx & <- & Hp).
    apply under_child with (n := n); auto. now apply (inv_incl _ _ _ _ _ HI). }
  destruct (for_of cs (deleteMessageRecursive fuel) db1) as [[] db2|e db2|] eqn:Hfor.
  - destruct (Hloop cs db1 _ _ db2 HIs Hcs Hfor eq_refl) as (Lr & HIr & Hinr & Hdone).
    assert (Hgone : forall c, In c s0 -> parent_id c = Some n -> ~ In c (rows db2)).
    { intros c Hc0 Hp Hin.
      assert (Hc : In (id c) cs).
      { apply children_spec. exists c. rewrite <- Hrows1. auto. }
      destruct (Hdone tt eq_refl (id c) Hc) as [Hno _].
      now destruct (Hno c Hin). }
    destruct (Inv_delete db2 _ n HIr Hu Hgone) as (HIfail & HIok & Hdn).
    rewrite <- !app_assoc in HIfail, HIok, Hdn.
    exists ([SelectChildren n] ++ Lr ++ [DeleteById n]).
    destruct (answers db2); subst o; injection Hfin as <-.
    + split; [exact HIok|]. split; [|intros _ _; exact Hdn].
      cbn [rows with_rows]. intros m Hm. apply without_In in Hm as [Hm _].
      rewrite <- Hrows1. auto.
    + split; [exact HIfail|]. split; [|discriminate].
      rewrite issue_rows. intros m Hm. rewrite <- Hrows1. auto.
  - subst o. injection Hfin as <-.
    destruct (Hloop cs db1 _ _ db2 HIs Hcs Hfor eq_refl) as (Lr & HIr & Hinr & _).
    exists ([SelectChildren n] ++ Lr). rewrite app_assoc.
    split; [exact HIr|]. split; [|discriminate].
    intros m Hm. rewrite <- Hrows1. auto.
  - subst o. discriminate.
Qed.
End cascade_invariant.

Lemma Inv_start db n : Inv (rows db) n (calls db) db [].
Proof.
  split; try tauto.
  - now rewrite app_nil_r.
  - intros l1 x l2 H. now destruct l1.
Qed.

Lemma cascade_from_start fuel n db o db' :
  deleteMessageRecursive fuel n db = o -> final o = Some db' ->
  exists L,
    Inv (rows db) n (calls db) db' L /\
    (forall a, o = Returned a db' -> Done n db' L).
Proof.
  intros Hrun Hfin.
  destruct (cascade_invariant (rows db) n (calls db) fuel n db [] o db'
              (Inv_start db n) (or_introl eq_refl) Hrun Hfin)
    as (L & HI & _ & Hd).
  exists L. auto.
Qed.

Lemma cascade_rows_incl fuel n db o db' :
  deleteMessageRecursive fuel n db = o -> final o = Some db' ->
  forall m, In m (rows db') -> In m (rows db).
Proof.
  intros Hrun Hfin.
  destruct (cascade_from_start fuel n db o db' Hrun Hfin) as (L & HI & _).
  exact (inv_incl _ _ _ _ _ HI).
Qed.

(** After a cascade on [n] that returns, what is left of the table is
    outside the subtree of [n]. *)
Lemma cascade_gone fuel n db db' :
  deleteMessageRecursive fuel n db = Returned tt db' ->
  forall m, In m (rows db') ->
            In m (rows db) /\ id m <> n /\ ~ reaches (rows db) m n.
Proof.
  intros Hrun m Hin.
  destruct (cascade_from_start fuel n db _ db' Hrun eq_refl) as (L & HI & Hd).
  destruct (Hd tt eq_refl) as [Hgone _].
  split; [exact (inv_incl _ _ _ _ _ HI m Hin)|].
  split; [now destruct (Hgone m Hin)|].
  intros Hr. revert Hin.
  induction Hr as [m n Hp|m p n Hp Hm _ IH]; intros Hin.
  - now destruct (Hgone m Hin).
  - exact (inv_closed _ _ _ _ _ HI p Hp (IH Hrun HI Hd Hgone) m Hin Hm).
Qed.

Example cascade_thread :
  deleteMessageRecursive 4 1 thread_db = Returned tt thread_db_after.
Proof. reflexivity. Qed.

Lemma unique_ids_eq s x m :
  unique_ids s -> In x s -> In m s -> id x = id m -> x = m.
Proof.
  unfold unique_ids. induction s as [|y s IH]; simpl; [tauto|].
  intros Hnd Hx Hm Heq. inversion Hnd as [|? ? Hy Hnd']; subst.
  destruct Hx as [->|Hx], Hm as [->|Hm]; auto.
  - exfalso. apply Hy. rewrite Heq. now apply in_map.
  - exfalso. apply Hy. rewrite <- Heq. now apply in_map.
Qed.

(** Under an acyclic table, another version of the lineage of [x] is not a
    descendant of [x]. *)
Lemma sibling_not_below s x m :
  acyclic s -> In x s -> parent_id m = parent_id x -> ~ reaches s m (id x).
Proof.
  intros Ha Hx Hp Hr. apply (Ha x Hx).
  inversion Hr as [? ? Hm|? p ? Hin Hm Hpn]; subst.
  - apply reaches_parent. congruence.
  - apply (reaches_up s x p (id x) Hin); [congruence | exact Hpn].
Qed.

(** On a table keyed by [id], a cascade on [n] takes rows of the subtree of
    [n] only. *)
Lemma cascade_frame fuel n db o db' :
  unique_ids (rows db) ->
  deleteMessageRecursive fuel n db = o -> final o = Some db' ->
  forall m, In m (rows db) -> id m <> n -> ~ reaches (rows db) m n ->
            In m (rows db').
Proof.
  intros Hu Hrun Hfin m Hm Hne Hnr.
  destruct (cascade_from_start fuel n db o db' Hrun Hfin) as (L & HI & _).
  destruct (in_dec Message_eq_dec m (rows db')) as [Hin|Hout]; [exact Hin|].
  exfalso.
  destruct (inv_frame _ _ _ _ _ HI m Hm Hout) as [Heq|(x & Hx & Heq & Hr)];
    [contradiction|].
  apply Hnr. now rewrite <- (unique_ids_eq _ x m Hu Hx Hm Heq).
Qed.

(** C3: on a table keyed by [id], the cascading delete of [n], completed or
    cut short by a failing call, keeps every row that is neither [n] nor a
    descendant of [n]; in particular, in an acyclic table, the other rows
    that share the [parent_id] of the row [n] are kept. *)
Theorem cascade_keeps_others (fuel : nat) (n : Z) (db : Store)
    (o : Outcome unit) (db' : Store) :
  unique_ids (rows db) ->
  deleteMessageRecursive fuel n db = o ->
  final o = Some db' ->
  (forall m, In m (rows db) -> id m <> n -> ~ reaches (rows db) m n ->
             In m (rows db')) /\
  (acyclic (rows db) ->
   forall x m, In x (rows db) -> id x = n -> In m (rows db) -> id m <> n ->
               parent_id m = parent_id x -> In m (rows db')).
Proof.
  intros Hu Hrun Hfin.
  pose proof (cascade_frame fuel n db o db' Hu Hrun Hfin) as Hframe.
  split; [exact Hframe|].
  intros Ha x m Hx Hidx Hm Hne Hp.
  apply Hframe; auto. subst n. now apply sibling_not_below.
Qed.

Lemma thread_unique_ids : unique_ids (rows thread_db).
Proof.
  unfold unique_ids. simpl.
  repeat constructor; intros H; list_cases H; discriminate.
Qed.

Lemma cascade_keeps_others_witness : In hello_v2 (rows thread_db_after).
Proof.
  refine (proj1 (cascade_keeps_others 4 1 thread_db _ thread_db_after
                   thread_unique_ids eq_refl eq_refl) hello_v2 _ _ _).
  - simpl. auto.
  - discriminate.
  - intros H. inversion H; discriminate.
Defined.

(** C7: in the calls issued by a cascading delete, completed or cut short,
    wherever the delete of an id [x] stands, the deletes of all the rows
    that were children of [x], and of all that were its descendants, stand
    before it. *)
Theorem cascade_children_first (fuel : nat) (n : Z) (db : Store)
    (o : Outcome unit) (db' : Store) (L : list Call) :
  deleteMessageRecursive fuel n db = o ->
  final o = Some db' ->
  calls db' = calls db ++ L ->
  forall l1 x l2, L = l1 ++ DeleteById x :: l2 ->
  forall c, In c (rows db) -> reaches (rows db) c x ->
            In (DeleteById (id c)) l1.
Proof.
  intros Hrun Hfin Hcalls.
  destruct (cascade_from_start fuel n db o db' Hrun Hfin) as (L0 & HI & _).
  pose proof (inv_calls _ _ _ _ _ HI) as Hc0. rewrite Hcalls in Hc0.
  apply app_inv_head in Hc0. subst L0.
  pose proof (inv_first _ _ _ _ _ HI) as Hfirst.
  intros l1 x l2 HL c Hc Hr. revert l1 l2 HL.
  induction Hr as [c x Hp|c p x Hin Hp _ IH]; intros l1 l2 HL.
  - exact (Hfirst l1 x l2 HL c Hc Hp).
  - specialize (IH Hin l1 l2 HL).
    apply in_split in IH as (la & lb & ->).
    rewrite <- app_assoc in HL. simpl in HL.
    apply in_or_app. left.
    exact (Hfirst la (id p) _ HL c Hc Hp).
Qed.

Lemma cascade_children_first_witness :
  In (DeleteById 4) [SelectChildren 1; SelectChildren 3; SelectChildren 4; DeleteById 4].
Proof.
  refine (cascade_children_first 4 1 thread_db _ thread_db_after thread_calls
            eq_refl eq_refl eq_refl
            [SelectChildren 1; SelectChildren 3; SelectChildren 4; DeleteById 4]
            3 [SelectChildren 5; DeleteById 5; DeleteById 1] eq_refl
            reply_b _ _).
  - simpl. auto.
  - now apply reaches_parent.
Defined.

(** ** Termination of the cascade *)

(** More budget does not change an outcome that was reached. *)
Lemma cascade_fuel_S fuel :
  forall n db o,
    deleteMessageRecursive fuel n db = o -> o <> Starved ->
    deleteMessageRecursive (S fuel) n db = o.
Proof.
  induction fuel as [|fuel IH]; intros n db o Hrun Ho.
  { simpl in Hrun. congruence. }
  assert (Hloop : forall cs db1 o1,
    for_of cs (deleteMessageRecursive fuel) db1 = o1 -> o1 <> Starved ->
    for_of cs (deleteMessageRecursive (S fuel)) db1 = o1).
  { induction cs as [|c cs IHcs]; intros db1 o1 H1 Ho1; [exact H1|].
    rewrite for_of_cons in *.
    destruct (deleteMessageRecursive fuel c db1) as [[] dbc|e dbc|] eqn:Hc.
    - rewrite (IH c db1 _ Hc); [|discriminate]. now apply IHcs.
    - rewrite (IH c db1 _ Hc); [exact H1|discriminate].
    - congruence. }
  rewrite deleteMessageRecursive_S in Hrun |- *.
  destruct (answers db); [|exact Hrun].
  destruct (for_of _ (deleteMessageRecursive fuel) _) as [[] db2|e db2|] eqn:Hfor.
  - rewrite (Hloop _ _ _ Hfor); [exact Hrun|discriminate].
  - rewrite (Hloop _ _ _ Hfor); [exact Hrun|discriminate].
  - congruence.
Qed.

Lemma cascade_fuel_le fuel fuel' n db o :
  deleteMessageRecursive fuel n db = o -> o <> Starved -> (fuel <= fuel')%nat ->
  deleteMessageRecursive fuel' n db = o.
Proof.
  intros Hrun Ho Hle. induction Hle as [|fuel' _ IH]; [exact Hrun|].
  now apply cascade_fuel_S.
Qed.

(** A store that never fails makes no cascade throw. *)
Lemma cascade_healthy fuel :
  forall n db,
    uptime db = None ->
    match deleteMessageRecursive fuel n db with
    | Returned _ db' => uptime db' = None
    | Threw _ _ => False
    | Starved => True
    end.
Proof.
  assert (Hissue : forall c db, uptime db = None ->
            answers db = true /\ uptime (snd (issue c db)) = None).
  { intros c db H. unfold answers, issue. now rewrite H. }
  induction fuel as [|fuel IH]; intros n db Hup; [exact I|].
  assert (Hloop : forall cs db1, uptime db1 = None ->
    match for_of cs (deleteMessageRecursive fuel) db1 with
    | Returned _ db' => uptime db' = None
    | Threw _ _ => False
    | Starved => True
    end).
  { induction cs as [|c cs IHcs]; intros db1 H1; [exact H1|].
    rewrite for_of_cons. specialize (IH c db1 H1).
    destruct (deleteMessageRecursive fuel c db1) as [[] dbc|e dbc|];
      [apply IHcs; exact IH | exact IH | exact I]. }
  rewrite deleteMessageRecursive_S.
  destruct (Hissue (SelectChildren n) db Hup) as [-> Hup1].
  specialize (Hloop (map id (List.filter (parent_is (Some n)) (rows db))) _ Hup1).
  destruct (for_of _ _ _) as [[] db2|e db2|]; auto.
  destruct (Hissue (DeleteById n) db2 Hloop) as [-> Hup3]. exact Hup3.
Qed.

Lemma call_bound_mono w w' d : (w <= w')%nat -> (call_bound w d <= call_bound w' d)%nat.
Proof.
  intros Hw. induction d as [|d IH]; simpl; [lia|]. nia.
Qed.

(** The calls of a cascade within [call_bound]. *)
Lemma cascade_calls_bound fuel :
  forall n db o db',
    deleteMessageRecursive fuel n db = o -> final o = Some db' ->
    (length (rows db') <= length (rows db))%nat /\
    exists L, calls db' = calls db ++ L /\
              (length L <= call_bound (length (rows db)) fuel)%nat.
Proof.
  induction fuel as [|fuel IH]; intros n db o db' Hrun Hfin.
  { subst o. discriminate. }
  assert (Hloop : forall cs db1 o1 db2,
    for_of cs (deleteMessageRecursive fuel) db1 = o1 -> final o1 = Some db2 ->
    (length (rows db2) <= length (rows db1))%nat /\
    exists L, calls db2 = calls db1 ++ L /\
              (length L <= length cs * call_bound (length (rows db1)) fuel)%nat).
  { induction cs as [|c cs IHcs]; intros db1 o1 db2 H1 Hf1.
    - simpl in H1. unfold ret in H1. subst o1. injection Hf1 as <-.
      split; [lia|]. exists []. rewrite app_nil_r. split; [reflexivity|simpl; lia].
    - rewrite for_of_cons in H1.
      destruct (deleteMessageRecursive fuel c db1) as [[] dbc|e dbc|] eqn:Hc.
      + destruct (IH c db1 _ dbc Hc eq_refl) as (Hlen & Lc & Hcalls & Hbound).
        destruct (IHcs dbc o1 db2 H1 Hf1) as (Hlen' & Lr & Hcalls' & Hbound').
        split; [lia|]. exists (Lc ++ Lr).
        split; [now rewrite Hcalls', Hcalls, app_assoc|].
        rewrite length_app. simpl.
        pose proof (call_bound_mono _ _ fuel Hlen). nia.
      + subst o1. injection Hf1 as <-.
        destruct (IH c db1 _ dbc Hc eq_refl) as (Hlen & Lc & Hcalls & Hbound).
        split; [exact Hlen|]. exists Lc. split; [exact Hcalls|]. simpl. lia.
      + subst o1. discriminate. }
  rewrite deleteMessageRecursive_S in Hrun.
  pose proof (issue_rows (SelectChildren n) db) as Hr1.
  pose proof (issue_calls (SelectChildren n) db) as Hc1.
  set (w := length (rows db)).
  assert (Hcs : (length (map id (List.filter (parent_is (Some n)) (rows db))) <= w)%nat).
  { rewrite length_map. apply List.filter_length_le. }
  destruct (answers db).
  2:{ subst o. injection Hfin as <-. rewrite Hr1. split; [lia|].
      exists [SelectChildren n]. split; [exact Hc1|]. simpl. lia. }
  destruct (for_of _ _ _) as [[] db2|e db2|] eqn:Hfor.
  - destruct (Hloop _ _ _ db2 Hfor eq_refl) as (Hlen & Lr & Hcalls & Hbound).
    rewrite Hr1 in Hlen, Hbound. fold w in Hlen, Hbound.
    pose proof (issue_rows (DeleteById n) db2) as Hr3.
    pose proof (issue_calls (DeleteById n) db2) as Hc3.
    assert (Hb : (length ([SelectChildren n] ++ Lr ++ [DeleteById n])
                  <= call_bound w (S fuel))%nat).
    { rewrite !length_app. simpl. nia. }
    assert (Hcc : calls (snd (issue (DeleteById n) db2)) =
                  calls db ++ [SelectChildren n] ++ Lr ++ [DeleteById n]).
    { rewrite Hc3, Hcalls, Hc1, <- !app_assoc. reflexivity. }
    destruct (answers db2); subst o; injection Hfin as <-.
    + split; [|eauto]. cbn [rows with_rows].
      pose proof (List.filter_length_le (fun m => negb (id m =? n)) (rows db2)). lia.
    + split; [rewrite Hr3; lia|eauto].
  - subst o. injection Hfin as <-.
    destruct (Hloop _ _ _ db2 Hfor eq_refl) as (Hlen & Lr & Hcalls & Hbound).
    rewrite Hr1 in Hlen, Hbound. fold w in Hlen, Hbound.
    split; [lia|]. exists ([SelectChildren n] ++ Lr).
    split; [now rewrite Hcalls, Hc1, <- app_assoc|].
    rewrite length_app. simpl. nia.
  - subst o. discriminate.
Qed.

(** With an acyclic table [s], a cascade on rows of [s] whose descendants
    all lie in a list of [k] rows needs a budget of [k + 1] at most. *)
Lemma cascade_fuel_enough s :
  acyclic s ->
  forall k fuel n db D,
    (forall m, In m (rows db) -> In m s) ->
    (forall m, In m s -> reaches s m n -> In m D) ->
    (length D <= k)%nat -> (k < fuel)%nat ->
    deleteMessageRecursive fuel n db <> Starved.
Proof.
  intros Ha. induction k as [|k IH]; intros fuel n db D Hincl HD Hlen Hk.
  - destruct fuel as [|fuel]; [lia|].
    rewrite deleteMessageRecursive_S. destruct (answers db); [|discriminate].
    destruct (map id (List.filter (parent_is (Some n)) (rows db))) as [|c cs] eqn:Hcs.
    + simpl. unfold ret. now destruct (answers _).
    + exfalso. assert (Hc : In c (c :: cs)) by now left.
      rewrite <- Hcs in Hc. apply children_spec in Hc as (x & Hx & _ & Hp).
      assert (HxD : In x D) by (apply HD; [auto | now apply reaches_parent]).
      destruct D; [destruct HxD | simpl in Hlen; lia].
  - destruct fuel as [|fuel]; [lia|].
    assert (Hloop : forall cs db1,
      (forall c, In c cs -> exists x, In x s /\ id x = c /\ parent_id x = Some n) ->
      (forall m, In m (rows db1) -> In m s) ->
      for_of cs (deleteMessageRecursive fuel) db1 <> Starved).
    { induction cs as [|c cs IHcs]; intros db1 Hcs H1; [discriminate|].
      rewrite for_of_cons.
      destruct (Hcs c (or_introl eq_refl)) as (x & Hx & <- & Hp).
      assert (HxD : In x D) by (apply HD; [auto | now apply reaches_parent]).
      assert (Hc : deleteMessageRecursive fuel (id x) db1 <> Starved).
      { apply (IH fuel (id x) db1 (remove Message_eq_dec x D)); [exact H1| | |lia].
        - intros m Hm Hr. apply in_in_remove.
          + intros ->. exact (Ha x Hx Hr).
          + apply HD; [exact Hm|]. now apply reaches_through with (x := x).
        - pose proof (remove_length_lt Message_eq_dec D x HxD). lia. }
      destruct (deleteMessageRecursive fuel (id x) db1) as [[] dbc|e dbc|] eqn:Hrun;
        [|discriminate|congruence].
      apply IHcs; [intros c' Hc'; apply Hcs; now right|].
      intros m Hm. apply H1.
      exact (cascade_rows_incl fuel (id x) db1 _ dbc Hrun eq_refl m Hm). }
    rewrite deleteMessageRecursive_S. destruct (answers db); [|discriminate].
    specialize (Hloop (map id (List.filter (parent_is (Some n)) (rows db)))
                      (snd (issue (SelectChildren n) db))).
    destruct (for_of _ _ _) as [[] db2|e db2|].
    + now destruct (answers db2).
    + discriminate.
    + exfalso. apply Hloop; [|now rewrite issue_rows|reflexivity].
      intros c Hc. apply children_spec in Hc as (x & Hx & Hid & Hp). eauto.
Qed.

(** *** A linear bound on tables keyed by [id] *)

Lemma unique_ids_filter f s : unique_ids s -> unique_ids (List.filter f s).
Proof.
  unfold unique_ids. induction s as [|x s IH]; simpl; intros H; [constructor|].
  inversion H as [|? ? Hx Hs]; subst.
  destruct (f x); simpl; [|auto].
  constructor; [|auto].
  intros Hin. apply Hx. apply in_map_iff in Hin as (y & Hy & Hin).
  apply List.filter_In in Hin as [Hin _]. rewrite <- Hy. now apply in_map.
Qed.

Lemma filter_length_lt {A} (f : A -> bool) l y :
  In y l -> f y = false -> (length (List.filter f l) < length l)%nat.
Proof.
  induction l as [|x l IH]; simpl; [tauto|].
  intros [->|Hy] Hf.
  - rewrite Hf. pose proof (List.filter_length_le f l). lia.
  - specialize (IH Hy Hf). destruct (f x); simpl; lia.
Qed.

Lemma acyclic_incl s s' :
  (forall m, In m s' -> In m s) -> acyclic s -> acyclic s'.
Proof.
  intros Hincl Ha m Hm Hr. apply (Ha m (Hincl m Hm)).
  now apply reaches_incl with (s := s').
Qed.

(** The row [y] with id [n] is not in the subtree of a child [x] of [n]. *)
Lemma parent_not_below s x y :
  acyclic s -> In x s -> In y s -> parent_id x = Some (id y) ->
  id y <> id x /\ ~ reaches s y (id x).
Proof.
  intros Ha Hx Hy Hp. split.
  - intros Heq. apply (Ha x Hx). apply reaches_parent. congruence.
  - intros Hr. apply (Ha x Hx). now apply (reaches_up s x y (id x) Hy).
Qed.

(** On an acyclic table keyed by [id], every cascade on an id that is in
    the table pays its two calls with a row it removes. *)
Lemma cascade_linear fuel :
  forall n db o db',
    unique_ids (rows db) -> acyclic (rows db) ->
    deleteMessageRecursive fuel n db = o -> final o = Some db' ->
    unique_ids (rows db') /\
    exists L, calls db' = calls db ++ L /\
      (length L + 2 * length (rows db') <= 2 * length (rows db) + fuel + 1)%nat /\
      (forall a, o = Returned a db' -> (exists y, In y (rows db) /\ id y = n) ->
                 (length L + 2 * length (rows db') <= 2 * length (rows db))%nat).
Proof.
  induction fuel as [|fuel IH]; intros n db o db' Hu Ha Hrun Hfin.
  { subst o. discriminate. }
  assert (Hloop : forall cs db1 o1 db2,
    List.NoDup cs ->
    (forall c, In c cs -> exists x, In x (rows db1) /\ id x = c /\ parent_id x = Some n) ->
    unique_ids (rows db1) -> acyclic (rows db1) ->
    for_of cs (deleteMessageRecursive fuel) db1 = o1 -> final o1 = Some db2 ->
    unique_ids (rows db2) /\
    (forall m, In m (rows db2) -> In m (rows db1)) /\
    (forall y, In y (rows db1) -> id y = n -> In y (rows db2)) /\
    exists L, calls db2 = calls db1 ++ L /\
      (length L + 2 * length (rows db2) <= 2 * length (rows db1) + fuel + 1)%nat /\
      (forall a, o1 = Returned a db2 ->
                 (length L + 2 * length (rows db2) <= 2 * length (rows db1))%nat)).
  { induction cs as [|c cs IHcs]; intros db1 o1 db2 Hnd Hcs Hu1 Ha1 H1 Hf1.
    - simpl in H1. unfold ret in H1. subst o1. injection Hf1 as <-.
      repeat split; auto. exists []. rewrite app_nil_r. simpl.
      repeat split; intros; lia.
    - rewrite for_of_cons in H1.
      apply List.NoDup_cons_iff in Hnd as [Hc_notin Hnd'].
      destruct (Hcs c (or_introl eq_refl)) as (x & Hx & Hidx & Hpx).
      destruct (deleteMessageRecursive fuel c db1) as [[] dbc|e dbc|] eqn:Hc.
      + destruct (IH c db1 _ dbc Hu1 Ha1 Hc eq_refl) as (Huc & Lc & Hcalls & _ & Htight).
        specialize (Htight tt eq_refl (ex_intro _ x (conj Hx Hidx))).
        pose proof (cascade_rows_incl fuel c db1 _ dbc Hc eq_refl) as Hincl.
        pose proof (cascade_frame fuel c db1 _ dbc Hu1 Hc eq_refl) as Hframe.
        assert (Hcs' : forall c', In c' cs ->
                  exists x', In x' (rows dbc) /\ id x' = c' /\ parent_id x' = Some n).
        { intros c' Hc'. destruct (Hcs c' (or_intror Hc')) as (x' & Hx' & Hid' & Hp').
          exists x'. split; [|auto]. apply Hframe; [exact Hx'|congruence|].
          rewrite <- Hidx. apply sibling_not_below; auto. congruence. }
        assert (Hac : acyclic (rows dbc)) by (eapply acyclic_incl; eauto).
        destruct (IHcs dbc o1 db2 Hnd' Hcs' Huc Hac H1 Hf1)
          as (Hu2 & Hincl2 & Hkeep2 & Lr & Hcalls2 & Hany & Hret).
        split; [exact Hu2|]. split; [auto|]. split.
        { intros y Hy Hidy. apply Hkeep2; [|exact Hidy].
          assert (Hpxy : parent_id x = Some (id y)) by congruence.
          destruct (parent_not_below (rows db1) x y Ha1 Hx Hy Hpxy) as [Hne Hnr].
          apply Hframe; [exact Hy| |]; rewrite <- Hidx; auto. }
        exists (Lc ++ Lr). split; [now rewrite Hcalls2, Hcalls, app_assoc|].
        rewrite length_app. split; [lia|].
        intros a Ho. specialize (Hret a Ho). lia.
      + subst o1. injection Hf1 as <-.
        destruct (IH c db1 _ dbc Hu1 Ha1 Hc eq_refl) as (Huc & Lc & Hcalls & Hany & _).
        pose proof (cascade_rows_incl fuel c db1 _ dbc Hc eq_refl) as Hincl.
        pose proof (cascade_frame fuel c db1 _ dbc Hu1 Hc eq_refl) as Hframe.
        split; [exact Huc|]. split; [exact Hincl|]. split.
        { intros y Hy Hidy.
          assert (Hpxy : parent_id x = Some (id y)) by congruence.
          destruct (parent_not_below (rows db1) x y Ha1 Hx Hy Hpxy) as [Hne Hnr].
          apply Hframe; [exact Hy| |]; rewrite <- Hidx; auto. }
        exists Lc. split; [exact Hcalls|]. split; [lia|discriminate].
      + subst o1. discriminate. }
  rewrite deleteMessageRecursive_S in Hrun.
  pose proof (issue_rows (SelectChildren n) db) as Hr1.
  pose proof (issue_calls (SelectChildren n) db) as Hc1.
  destruct (answers db).
  2:{ subst o. injection Hfin as <-. rewrite Hr1. split; [exact Hu|].
      exists [SelectChildren n]. split; [exact Hc1|]. simpl.
      split; [lia|discriminate]. }
  assert (Hnd : List.NoDup (map id (List.filter (parent_is (Some n)) (rows db))))
    by now apply unique_ids_filter.
  assert (Hcs : forall c, In c (map id (List.filter (parent_is (Some n)) (rows db))) ->
                exists x, In x (rows (snd (issue (SelectChildren n) db))) /\
                          id x = c /\ parent_id x = Some n)
    by (intros c; rewrite Hr1; apply children_spec).
  assert (Hu1 : unique_ids (rows (snd (issue (SelectChildren n) db))))
    by now rewrite Hr1.
  assert (Ha1 : acyclic (rows (snd (issue (SelectChildren n) db))))
    by now rewrite Hr1.
  destruct (for_of _ _ _) as [[] db2|e db2|] eqn:Hfor.
  - destruct (Hloop _ _ _ db2 Hnd Hcs Hu1 Ha1 Hfor eq_refl)
      as (Hu2 & Hincl2 & Hkeep2 & Lr & Hcalls2 & _ & Hret).
    specialize (Hret tt eq_refl). rewrite Hr1 in Hret, Hkeep2.
    pose proof (issue_rows (DeleteById n) db2) as Hr3.
    pose proof (issue_calls (DeleteById n) db2) as Hc3.
    assert (Hcc : calls (snd (issue (DeleteById n) db2)) =
                  calls db ++ [SelectChildren n] ++ Lr ++ [DeleteById n]).
    { rewrite Hc3, Hcalls2, Hc1, <- !app_assoc. reflexivity. }
    assert (Hlen : length ([SelectChildren n] ++ Lr ++ [DeleteById n]) = S (S (length Lr))).
    { rewrite !length_app. simpl. lia. }
    pose proof (List.filter_length_le (fun m => negb (id m =? n)) (rows db2)) as Hle.
    destruct (answers db2); subst o; injection Hfin as <-.
    + cbn [rows with_rows]. split; [now apply unique_ids_filter|].
      exists ([SelectChildren n] ++ Lr ++ [DeleteById n]).
      split; [exact Hcc|]. rewrite Hlen. split; [lia|].
      intros _ _ (y & Hy & Hidy).
      assert (Hlt : (length (List.filter (fun m => negb (id m =? n)%Z) (rows db2))
                     < length (rows db2))%nat).
      { apply filter_length_lt with (y := y); [now apply Hkeep2|].
        apply negb_false_iff, Z.eqb_eq, Hidy. }
      lia.
    + rewrite Hr3. split; [exact Hu2|].
      exists ([SelectChildren n] ++ Lr ++ [DeleteById n]).
      split; [exact Hcc|]. rewrite Hlen. split; [lia|discriminate].
  - subst o. injection Hfin as <-.
    destruct (Hloop _ _ _ db2 Hnd Hcs Hu1 Ha1 Hfor eq_refl)
      as (Hu2 & Hincl2 & Hkeep2 & Lr & Hcalls2 & Hany & _).
    rewrite Hr1 in Hany.
    split; [exact Hu2|]. exists ([SelectChildren n] ++ Lr).
    split; [now rewrite Hcalls2, Hc1, <- app_assoc|].
    rewrite length_app. simpl. split; [lia|discriminate].
  - subst o. discriminate.
Qed.

(** C10: on a table whose [parent_id] references are acyclic, the cascading
    delete of any id ends: with any budget above the number of rows it gives
    one and the same outcome, a return or a throw, and it returns when the
    store never fails.  The calls it has issued are at most
    [call_bound rows (rows + 1)]; on a table keyed by [id] they are at most
    three for each row and two more, and two for each row removed when the
    cascade returns and the id was in the table. *)
Theorem cascade_terminates (n : Z) (db : Store) :
  acyclic (rows db) ->
  exists o db' L,
    (forall fuel, (length (rows db) < fuel)%nat ->
                  deleteMessageRecursive fuel n db = o) /\
    final o = Some db' /\
    calls db' = calls db ++ L /\
    (length L <= call_bound (length (rows db)) (S (length (rows db))))%nat /\
    (uptime db = None -> o = Returned tt db') /\
    (unique_ids (rows db) ->
     (length L <= 3 * length (rows db) + 2)%nat /\
     (o = Returned tt db' -> (exists y, In y (rows db) /\ id y = n) ->
      (length L + 2 * length (rows db') <= 2 * length (rows db))%nat)).
Proof.
  intros Ha.
  set (f0 := S (length (rows db))).
  assert (Hns : deleteMessageRecursive f0 n db <> Starved).
  { apply (cascade_fuel_enough (rows db) Ha (length (rows db)) f0 n db (rows db));
      auto; unfold f0; lia. }
  destruct (deleteMessageRecursive f0 n db) as [a db'|e db'|] eqn:Hrun;
    [| |congruence].
  - destruct a.
    destruct (cascade_calls_bound f0 n db _ db' Hrun eq_refl) as (_ & L & Hc & Hb).
    exists (Returned tt db'), db', L.
    split; [|split; [reflexivity|split; [exact Hc|split; [exact Hb|split; [auto|]]]]].
    + intros fuel Hf.
      apply (cascade_fuel_le f0); [exact Hrun | discriminate | unfold f0; lia].
    + intros Hu.
      destruct (cascade_linear f0 n db _ db' Hu Ha Hrun eq_refl)
        as (_ & L' & Hc' & Hany & Hret).
      rewrite Hc in Hc'. apply app_inv_head in Hc'. subst L'.
      split; [unfold f0 in Hany; lia|].
      intros _ Hy. exact (Hret tt eq_refl Hy).
  - destruct (cascade_calls_bound f0 n db _ db' Hrun eq_refl) as (_ & L & Hc & Hb).
    exists (Threw e db'), db', L.
    split; [|split; [reflexivity|split; [exact Hc|split; [exact Hb|split]]]].
    + intros fuel Hf.
      apply (cascade_fuel_le f0); [exact Hrun | discriminate | unfold f0; lia].
    + intros Hup. pose proof (cascade_healthy f0 n db Hup) as Hh.
      rewrite Hrun in Hh. destruct Hh.
    + intros Hu.
      destruct (cascade_linear f0 n db _ db' Hu Ha Hrun eq_refl)
        as (_ & L' & Hc' & Hany & _).
      rewrite Hc in Hc'. apply app_inv_head in Hc'. subst L'.
      split; [unfold f0 in Hany; lia | discriminate].
Qed.

(** Ids assigned in increasing order, each parent older than its children,
    leave no cycle. *)
Lemma acyclic_by_ids s :
  (forall m p, In m s -> parent_id m = Some p -> p < id m) -> acyclic s.
Proof.
  intros Hs.
  assert (Hlt : forall m n, reaches s m n -> In m s -> n < id m).
  { induction 1 as [m n Hp|m p n Hin Hp _ IH]; intros Hm.
    - now apply Hs.
    - specialize (IH Hin). specialize (Hs m (id p) Hm Hp). lia. }
  intros m Hm Hr. specialize (Hlt m (id m) Hr Hm). lia.
Qed.

Lemma thread_acyclic : acyclic (rows thread_db).
Proof.
  apply acyclic_by_ids. intros m p Hm Hp.
  list_cases Hm; subst m; simpl in Hp; try discriminate;
    injection Hp as <-; simpl; lia.
Qed.

(** C2: on a store that never fails and a table whose [parent_id]
    references are acyclic, the cascading delete of [n] completes, with
    any budget above the number of rows, and the store it leaves holds no
    message whose id is [n] and no message whose [parent_id] chain,
    followed through the rows the store had before, reaches [n]. *)
Theorem cascade_removes_subtree (fuel : nat) (n : Z) (db : Store) :
  uptime db = None ->
  acyclic (rows db) ->
  (length (rows db) < fuel)%nat ->
  exists db',
    deleteMessageRecursive fuel n db = Returned tt db' /\
    forall m, id m = n \/ reaches (rows db) m n -> ~ In m (rows db').
Proof.
  intros Hup Ha Hfuel.
  assert (Hns : deleteMessageRecursive fuel n db <> Starved).
  { apply (cascade_fuel_enough (rows db) Ha (length (rows db)) fuel n db (rows db));
      auto. }
  pose proof (cascade_healthy fuel n db Hup) as Hh.
  destruct (deleteMessageRecursive fuel n db) as [[] db'|e db'|] eqn:Hrun;
    [|destruct Hh|congruence].
  exists db'. split; [reflexivity|].
  intros m Hm Hin.
  destruct (cascade_gone fuel n db db' Hrun m Hin) as (_ & Hne & Hnr).
  tauto.
Qed.

Lemma cascade_removes_subtree_witness :
  exists db',
    deleteMessageRecursive 6 1 thread_db = Returned tt db' /\
    ~ In reply_b (rows db').
Proof.
  destruct (cascade_removes_subtree 6 1 thread_db eq_refl thread_acyclic)
    as (db' & Hrun & Habs).
  - simpl. lia.
  - exists db'. split; [exact Hrun|].
    apply Habs. right. apply (reaches_up _ reply_b reply_a 1).
    + simpl. auto.
    + reflexivity.
    + now apply reaches_parent.
Defined.

Lemma cascade_terminates_witness :
  exists o, forall fuel, (5 < fuel)%nat -> deleteMessageRecursive fuel 1 thread_db = o.
Proof.
  destruct (cascade_terminates 1 thread_db thread_acyclic) as (o & _ & _ & H & _).
  exists o. exact H.
Defined.

(** A row that is its own parent: the cascade on it never ends. *)
Example cascade_self_parent fuel :
  deleteMessageRecursive fuel 7
    (mkStore [mkMessage 7 [] (Some 7) 1 0] 8 1 None []) = Starved.
Proof.
  set (s := [mkMessage 7 [] (Some 7) 1 0]).
  assert (H : forall l, deleteMessageRecursive fuel 7 (mkStore s 8 1 None l) = Starved).
  { induction fuel as [|fuel IH]; intros l; [reflexivity|].
    rewrite deleteMessageRecursive_S. cbn. unfold bind. now rewrite IH. }
  apply H.
Qed.

(** A store that fails at the fifth call cuts the cascade short: the reply
    under the first reply is gone, the rest of the thread is still there. *)
Example cascade_cut_short :
  deleteMessageRecursive 4 1
    (mkStore [hello; hello_v2; reply_a; reply_b; reply_a2] 6 105 (Some 4%nat) []) =
  Threw Unavailable
    (mkStore [hello; hello_v2; reply_a; reply_a2] 6 105 (Some O)
       [SelectChildren 1; SelectChildren 3; SelectChildren 4; DeleteById 4;
        DeleteById 3]).
Proof. reflexivity. Qed.

(** Were two rows to share an id, the delete by id would take both, also
    the one outside the subtree: hence [unique_ids] in the frame property. *)
Example cascade_shared_id :
  deleteMessageRecursive 3 1
    (mkStore [mkMessage 5 [] (Some 1) 1 0; mkMessage 5 [] None 1 1] 6 2 None []) =
  Returned tt
    (mkStore [] 6 2 None
       [SelectChildren 1; SelectChildren 5; DeleteById 5; DeleteById 1]).
Proof. reflexivity. Qed.

(** The page sorts on [version] alone: among equal versions the order is
    the one of the list it is given, which for a snapshot is the order of
    the fetch. *)
Example sortedMessages_ties :
  sortedMessages [mkMessage 1 [] None 1 5; mkMessage 2 [] None 2 6;
                  mkMessage 3 [] None 1 7] None =
    [mkMessage 2 [] None 2 6; mkMessage 1 [] None 1 5; mkMessage 3 [] None 1 7].
Proof. reflexivity. Qed.

(** * Further properties of the page *)

(** ** Fetching and the error banner *)

Lemma place_Permutation x l : Permutation (place x l) (x :: l).
Proof.
  induction l as [|y l IH]; simpl; [reflexivity|].
  destruct (precedes x y); [reflexivity|].
  rewrite IH. apply perm_swap.
Qed.

Lemma order_rows_Permutation l : Permutation (order_rows l) l.
Proof.
  induction l as [|x l IH]; simpl; [reflexivity|].
  rewrite place_Permutation. now constructor.
Qed.

Lemma fetchMessages_answered w :
  answers (db w) = true ->
  messages (ui (fetchMessages w)) = order_rows (rows (db w)) /\
  rows (db (fetchMessages w)) = rows (db w) /\
  calls (db (fetchMessages w)) = calls (db w) ++ [SelectAll] /\
  errorMessage (ui (fetchMessages w)) = errorMessage (ui w).
Proof.
  intros Hans. unfold fetchMessages, select_all.
  pose proof (issue_fst SelectAll (db w)) as Hf.
  pose proof (issue_rows SelectAll (db w)) as Hr.
  pose proof (issue_calls SelectAll (db w)) as Hc.
  destruct (issue SelectAll (db w)) as [ok db1]. simpl in Hf, Hr, Hc.
  rewrite Hans in Hf. subst ok. simpl. rewrite Hr. auto.
Qed.

(** X1: when the store answers, [fetchMessages] installs as the snapshot
    the rows of the table, each one once, in the order of the select; it
    issues the one select, leaves the table alone and does not take an
    error message down. *)
Theorem fetchMessages_success (w : World) :
  answers (db w) = true ->
  Permutation (messages (ui (fetchMessages w))) (rows (db w)) /\
  fetch_sorted (messages (ui (fetchMessages w))) /\
  rows (db (fetchMessages w)) = rows (db w) /\
  calls (db (fetchMessages w)) = calls (db w) ++ [SelectAll] /\
  errorMessage (ui (fetchMessages w)) = errorMessage (ui w).
Proof.
  intros Hans.
  destruct (fetchMessages_answered w Hans) as (Hm & Hr & Hc & He).
  rewrite Hm. repeat split; auto.
  - apply order_rows_Permutation.
  - apply order_rows_sorted.
Qed.

Lemma fetchMessages_success_witness :
  Permutation (messages (ui (fetchMessages (mkWorld initial_state thread_db))))
              (rows thread_db).
Proof.
  refine (proj1 (fetchMessages_success (mkWorld initial_state thread_db) _)).
  reflexivity.
Defined.

Lemma fetchMessages_error w :
  errorMessage (ui w) <> None -> errorMessage (ui (fetchMessages w)) <> None.
Proof.
  intros H. unfold fetchMessages.
  destruct (select_all (db w)) as [r db']. destruct (error r); simpl; congruence.
Qed.

Lemma sendMessage_error parentMessage w :
  errorMessage (ui w) <> None ->
  errorMessage (ui (sendMessage parentMessage w)) <> None.
Proof.
  intros H. unfold sendMessage. destruct (is_empty _); [exact H|].
  destruct (insert _ _ _ _) as [r db']. destruct (error r); simpl; congruence.
Qed.

Lemma step_error w w' :
  step w w' -> errorMessage (ui w) <> None -> errorMessage (ui w') <> None.
Proof.
  intros Hstep H.
  destruct Hstep as [w|w text|w m|w m|w|w enter|w|w i|w fuel confirmed i w' Hd|w db'];
    simpl; try exact H.
  - now apply fetchMessages_error.
  - now apply sendMessage_error.
  - unfold handleKeyPress. destruct enter; [now apply sendMessage_error|exact H].
  - unfold deleteMessage in Hd. destruct confirmed; simpl in Hd.
    + destruct (deleteMessageRecursive fuel i (db w)) as [[] db'|e db'|];
        [| |discriminate]; injection Hd as <-; [|discriminate].
      now apply fetchMessages_error.
    + now injection Hd as <-.
Qed.

(** X2: no handler takes the error message down: once it is set it stays
    set, whatever happens next (a successful refetch, a send, a delete, a
    cancel). *)
Theorem error_banner_stays (w w' : World) :
  rtc step w w' ->
  errorMessage (ui w) <> None ->
  errorMessage (ui w') <> None.
Proof.
  induction 1 as [w|w w1 w' Hstep _ IH]; [auto|].
  intros H. apply IH. now apply (step_error w).
Qed.

Lemma error_banner_stays_witness :
  errorMessage (ui (fetchMessages board_error)) <> None.
Proof.
  apply (error_banner_stays board_error (fetchMessages board_error)).
  - apply rtc_once, step_notify.
  - discriminate.
Defined.

(** ** Sending *)

(** X3: a send with a text that is not blank empties the input box and
    drops the selection when the store takes the row, and keeps both, with
    the error message set, when the store refuses it; the snapshot and the
    visibility map are left alone either way. *)
Theorem sendMessage_composer (parentMessage : option Message) (w : World) :
  ~ blank (input (ui w)) ->
  (if answers (db w)
   then input (ui (sendMessage parentMessage w)) = [] /\
        selectedMessage (ui (sendMessage parentMessage w)) = None /\
        errorMessage (ui (sendMessage parentMessage w)) = errorMessage (ui w)
   else input (ui (sendMessage parentMessage w)) = input (ui w) /\
        selectedMessage (ui (sendMessage parentMessage w)) = selectedMessage (ui w) /\
        errorMessage (ui (sendMessage parentMessage w)) =
          Some "Error sending message. Please try again."%string) /\
  messages (ui (sendMessage parentMessage w)) = messages (ui w) /\
  branchesVisible (ui (sendMessage parentMessage w)) = branchesVisible (ui w).
Proof.
  intros H. unfold sendMessage. rewrite (is_empty_trim_false _ H).
  set (p := match parentMessage with Some m => parent_id m | None => None end).
  set (v := match parentMessage with Some m => js_add (version m) 1 | None => 1 end).
  pose proof (insert_spec (input (ui w)) p v (db w)) as Hi.
  destruct (insert (input (ui w)) p v (db w)) as [r db'].
  destruct Hi as [_ Hr].
  destruct (answers (db w)).
  - destruct Hr as [-> _]. simpl. auto.
  - destruct Hr as [He _]. destruct (error r); [simpl; auto|congruence].
Qed.

Lemma sendMessage_composer_witness :
  input (ui (sendMessage None
    (mkWorld (onChange (of_ascii "Hi") initial_state) thread_db_down))) =
  of_ascii "Hi".
Proof.
  refine (proj1 (proj1 (sendMessage_composer None
    (mkWorld (onChange (of_ascii "Hi") initial_state) thread_db_down) _))).
  intros H. inversion H as [|c s Hc Hs]. discriminate Hc.
Defined.

(** X4: with no message selected, sending a text that is not blank to a
    store that answers adds, at the end of the table, one row with that
    text, a null [parent_id] and [version] 1. *)
Theorem sendMessage_root (w : World) :
  ~ blank (input (ui w)) ->
  answers (db w) = true ->
  rows (db (sendMessage None w)) =
    rows (db w) ++ [mkMessage (next_id (db w)) (input (ui w)) None 1 (clock (db w))] /\
  calls (db (sendMessage None w)) = calls (db w) ++ [Insert (input (ui w)) None 1].
Proof.
  intros H Hans.
  destruct (sendMessage_store None w H) as [Hc Hr].
  rewrite Hans in Hr. auto.
Qed.

Lemma sendMessage_root_witness :
  rows (db (sendMessage None
    (mkWorld (onChange (of_ascii "Hi") initial_state) thread_db))) =
  rows thread_db ++ [mkMessage 6 (of_ascii "Hi") None 1 105].
Proof.
  refine (proj1 (sendMessage_root
    (mkWorld (onChange (of_ascii "Hi") initial_state) thread_db) _ _)).
  - intros H. inversion H as [|c s Hc Hs]. discriminate Hc.
  - reflexivity.
Defined.

(** X5: whatever is selected and whatever the input box holds,
    [sendMessage] removes no row and changes none: the table it leaves is
    the old one followed by at most one row, whose content is the input and
    is not blank. *)
Theorem sendMessage_only_appends (parentMessage : option Message) (w : World) :
  exists added,
    rows (db (sendMessage parentMessage w)) = rows (db w) ++ added /\
    (length added <= 1)%nat /\
    (forall m, In m added -> content m = input (ui w) /\ ~ blank (content m)).
Proof.
  destruct (is_empty (trim (input (ui w)))) eqn:E.
  - exists []. unfold sendMessage. rewrite E, app_nil_r.
    split; [reflexivity|]. split; [simpl; lia|]. intros m [].
  - assert (H : ~ blank (input (ui w))).
    { intros Hb. apply is_empty_trim in Hb. congruence. }
    destruct (sendMessage_store parentMessage w H) as [_ Hr].
    eexists. split; [exact Hr|].
    destruct (answers (db w)); simpl; split; try lia.
    intros m [<-|[]]. simpl. auto.
Qed.

Lemma edit_rows existing text w :
  ~ blank text ->
  rows (db (edit existing text w)) =
    rows (db w) ++
    (if answers (db w)
     then [mkMessage (next_id (db w)) text (parent_id existing)
                     (js_add (version existing) 1) (clock (db w))]
     else []).
Proof.
  intros Hnb. unfold edit, clickSend.
  set (w1 := mkWorld (onChange text (clickEdit existing (ui w))) (db w)).
  change (selectedMessage (ui w1)) with (Some existing).
  destruct (sendMessage_store (Some existing) w1) as [_ Hr]; [exact Hnb|].
  exact Hr.
Qed.

(** X6: the version of an edit is computed from the message that was
    selected, not from the newest one.  Editing a message, whose version is
    a safe integer (below [2 ^ 53] in magnitude), of which the table
    already holds the next version adds a second row with the same
    [parent_id] and the same [version] as that next version. *)
Theorem edit_old_version_repeats_version
    (existing newer : Message) (text : jsstring) (w : World) :
  In newer (rows (db w)) ->
  parent_id newer = parent_id existing ->
  Z.abs (version existing) < 2 ^ 53 ->
  version newer = version existing + 1 ->
  ~ blank text ->
  answers (db w) = true ->
  (forall m, In m (rows (db w)) -> id m < next_id (db w)) ->
  exists m,
    In m (rows (db (edit existing text w))) /\
    In newer (rows (db (edit existing text w))) /\
    m <> newer /\
    parent_id m = parent_id newer /\
    version m = version newer.
Proof.
  intros Hnewer Hp Hsafe Hv Hnb Hans Hserial.
  rewrite (edit_rows existing text w Hnb), Hans, (js_add_safe _ Hsafe).
  eexists. split; [apply in_or_app; right; now left|].
  split; [apply in_or_app; now left|].
  split; [|simpl; split; congruence].
  intros Heq. specialize (Hserial newer Hnewer). rewrite <- Heq in Hserial.
  simpl in Hserial. lia.
Qed.

(** The page showing the root message and its edit. *)
Lemma edit_old_version_repeats_version_witness :
  exists m,
    In m (rows (db (edit hello (of_ascii "Hello again")
                      (mkWorld initial_state thread_db)))) /\
    In hello_v2 (rows (db (edit hello (of_ascii "Hello again")
                             (mkWorld initial_state thread_db)))) /\
    m <> hello_v2 /\
    parent_id m = parent_id hello_v2 /\
    version m = version hello_v2.
Proof.
  apply (edit_old_version_repeats_version hello hello_v2 (of_ascii "Hello again")
           (mkWorld initial_state thread_db)).
  - simpl. auto.
  - reflexivity.
  - reflexivity.
  - reflexivity.
  - intros H. inversion H as [|c s Hc Hs]. discriminate Hc.
  - reflexivity.
  - intros m Hm. list_cases Hm; subst m; simpl; lia.
Defined.

Lemma sendMessage_uptime parentMessage w :
  uptime (db w) = None -> uptime (db (sendMessage parentMessage w)) = None.
Proof.
  intros H. unfold sendMessage. destruct (is_empty _); [exact H|].
  unfold insert, issue. rewrite H. reflexivity.
Qed.

(** X7: on a store that never fails, a send followed by the refetch that
    its change notification triggers puts the new row on the page: the
    snapshot is then the old table and the new row, each row once. *)
Theorem send_then_fetch (parentMessage : option Message) (w : World) :
  uptime (db w) = None ->
  ~ blank (input (ui w)) ->
  let new :=
    mkMessage (next_id (db w)) (input (ui w))
      (match parentMessage with Some m => parent_id m | None => None end)
      (match parentMessage with Some m => js_add (version m) 1 | None => 1 end)
      (clock (db w)) in
  Permutation (messages (ui (fetchMessages (sendMessage parentMessage w))))
              (rows (db w) ++ [new]) /\
  In new (messages (ui (fetchMessages (sendMessage parentMessage w)))).
Proof.
  intros Hup Hnb new.
  assert (Hans : answers (db (sendMessage parentMessage w)) = true).
  { unfold answers. now rewrite (sendMessage_uptime parentMessage w Hup). }
  destruct (fetchMessages_answered _ Hans) as (Hm & _).
  destruct (sendMessage_store parentMessage w Hnb) as [_ Hr].
  assert (Ha : answers (db w) = true) by (unfold answers; now rewrite Hup).
  rewrite Ha in Hr. rewrite Hm, Hr. split.
  - apply order_rows_Permutation.
  - apply order_rows_In, in_or_app. right. now left.
Qed.

Lemma send_then_fetch_witness :
  In (mkMessage 6 (of_ascii "Hi") None 1 105)
     (messages (ui (fetchMessages (sendMessage None
        (mkWorld (onChange (of_ascii "Hi") initial_state) thread_db))))).
Proof.
  refine (proj2 (send_then_fetch None
    (mkWorld (onChange (of_ascii "Hi") initial_state) thread_db) _ _)).
  - reflexivity.
  - intros H. inversion H as [|c s Hc Hs]. discriminate Hc.
Defined.

(** ** Visibility of branches *)

(** X8: a toggle flips whether the branches of that message are shown (an
    absent entry counts as hidden, so the first toggle shows them) and
    leaves every other message as it was; toggles of two different
    messages give the same state in either order. *)
Theorem toggle_flips_one (i : Z) (st : AppState) :
  (forall j, visible (branchesVisible (toggleBranchesVisibility i st)) j =
             if j =? i then negb (visible (branchesVisible st) i)
             else visible (branchesVisible st) j) /\
  (forall j, j <> i ->
             toggleBranchesVisibility i (toggleBranchesVisibility j st) =
             toggleBranchesVisibility j (toggleBranchesVisibility i st)).
Proof.
  split.
  - intros j. simpl. unfold visible at 1.
    destruct (Z.eqb_spec j i) as [->|Hne].
    + now rewrite lookup_insert_eq.
    + rewrite lookup_insert_ne; [reflexivity|congruence].
  - intros j Hne. unfold toggleBranchesVisibility, setBranchesVisible. simpl.
    f_equal.
    assert (Hi : visible (<[j:=negb (visible (branchesVisible st) j)]>
                            (branchesVisible st)) i = visible (branchesVisible st) i).
    { unfold visible at 1. now rewrite lookup_insert_ne. }
    assert (Hj : visible (<[i:=negb (visible (branchesVisible st) i)]>
                            (branchesVisible st)) j = visible (branchesVisible st) j).
    { unfold visible at 1. rewrite lookup_insert_ne; [reflexivity|congruence]. }
    rewrite Hi, Hj. apply insert_insert_ne. congruence.
Qed.

(** ** Sorting of the siblings *)

Lemma sort_insert_Permutation {A} (cmp : A -> A -> Z) x l :
  Permutation (sort_insert cmp x l) (x :: l).
Proof.
  induction l as [|y l IH]; simpl; [reflexivity|].
  destruct (0 <? cmp x y); [|reflexivity].
  rewrite IH. apply perm_swap.
Qed.

Lemma js_sort_Permutation {A} (cmp : A -> A -> Z) l :
  Permutation (js_sort cmp l) l.
Proof.
  induction l as [|x l IH]; simpl; [reflexivity|].
  rewrite sort_insert_Permutation. now constructor.
Qed.

Lemma by_version_insert_sorted x l :
  StronglySorted (fun a b => version b <= version a) l ->
  StronglySorted (fun a b => version b <= version a)
                 (sort_insert (fun a b => js_sub (version b) (version a)) x l).
Proof.
  induction 1 as [|y l Hs IH Hy]; simpl; [repeat constructor|].
  rewrite js_sub_pos.
  destruct (Z.ltb_spec 0 (version y - version x)).
  - constructor; [exact IH|].
    rewrite List.Forall_forall in *. intros m Hm.
    apply sort_insert_In in Hm as [->|Hm]; [lia|auto].
  - constructor; [now constructor|].
    constructor; [lia|].
    rewrite List.Forall_forall in *. intros m Hm. specialize (Hy m Hm). lia.
Qed.

Lemma by_version_insert_stable v x l :
  List.filter (fun m => version m =? v)
              (sort_insert (fun a b => js_sub (version b) (version a)) x l) =
  List.filter (fun m => version m =? v) (x :: l).
Proof.
  induction l as [|y l IH]; [reflexivity|].
  cbn [sort_insert]. rewrite js_sub_pos.
  destruct (Z.ltb_spec 0 (version y - version x)); [|reflexivity].
  cbn [List.filter] in *. rewrite IH.
  destruct (Z.eqb_spec (version x) v), (Z.eqb_spec (version y) v);
    try reflexivity; lia.
Qed.

(** X9: for every list of messages, ordered or not, the siblings that
    [renderMessages] lists under a parent are the rows with that
    [parent_id], each one once, by descending [version]; rows of one
    version keep the order they had in the list (the sort is stable). *)
Theorem sortedMessages_any_list (msgs : list Message) (parentId : option Z) :
  Permutation (sortedMessages msgs parentId)
              (List.filter (parent_is parentId) msgs) /\
  StronglySorted (fun a b => version b <= version a)
                 (sortedMessages msgs parentId) /\
  (forall v,
     List.filter (fun m => version m =? v) (sortedMessages msgs parentId) =
     List.filter (fun m => version m =? v)
                 (List.filter (parent_is parentId) msgs)).
Proof.
  unfold sortedMessages.
  generalize (List.filter (parent_is parentId) msgs) as l. intros l.
  split; [apply js_sort_Permutation|]. split.
  - induction l as [|x l IH]; simpl; [constructor|].
    now apply by_version_insert_sorted.
  - intros v. induction l as [|x l IH]; [reflexivity|].
    change (js_sort (fun a b => js_sub (version b) (version a)) (x :: l))
      with (sort_insert (fun a b => js_sub (version b) (version a)) x
              (js_sort (fun a b => js_sub (version b) (version a)) l)).
    rewrite by_version_insert_stable. cbn [List.filter]. now rewrite IH.
Qed.

(** ** More on the cascading delete *)

Lemma under_incl s s' i n :
  (forall x, In x s -> In x s') -> under s i n -> under s' i n.
Proof.
  intros Hincl [->|(x & Hx & Hid & Hr)]; [now left|].
  right. exists x. split; [auto|]. split; [exact Hid|].
  now apply reaches_incl with (s := s).
Qed.

Lemma cascade_within s0 top fuel :
  forall n db o db',
    (forall m, In m (rows db) -> In m s0) -> under s0 n top ->
    deleteMessageRecursive fuel n db = o -> final o = Some db' ->
    exists L, calls db' = calls db ++ L /\ Forall (within s0 top) L.
Proof.
  induction fuel as [|fuel IH]; intros n db o db' Hincl Hu Hrun Hfin.
  { subst o. discriminate. }
  assert (Hloop : forall cs db1 o1 db2,
    (forall m, In m (rows db1) -> In m s0) ->
    (forall c, In c cs -> under s0 c top) ->
    for_of cs (deleteMessageRecursive fuel) db1 = o1 -> final o1 = Some db2 ->
    exists L, calls db2 = calls db1 ++ L /\ Forall (within s0 top) L).
  { induction cs as [|c cs IHcs]; intros db1 o1 db2 Hi1 Hcs H1 Hf1.
    - simpl in H1. unfold ret in H1. subst o1. injection Hf1 as <-.
      exists []. rewrite app_nil_r. split; [reflexivity|constructor].
    - rewrite for_of_cons in H1.
      destruct (deleteMessageRecursive fuel c db1) as [[] dbc|e dbc|] eqn:Hc.
      + destruct (IH c db1 _ dbc Hi1 (Hcs c (or_introl eq_refl)) Hc eq_refl)
          as (Lc & Hcalls & HLc).
        pose proof (cascade_rows_incl fuel c db1 _ dbc Hc eq_refl) as Hic.
        destruct (IHcs dbc o1 db2 (fun m Hm => Hi1 m (Hic m Hm))
                    (fun c' Hc' => Hcs c' (or_intror Hc')) H1 Hf1)
          as (Lr & Hcalls' & HLr).
        exists (Lc ++ Lr). split; [now rewrite Hcalls', Hcalls, app_assoc|].
        apply List.Forall_app. auto.
      + subst o1. injection Hf1 as <-.
        exact (IH c db1 _ dbc Hi1 (Hcs c (or_introl eq_refl)) Hc eq_refl).
      + subst o1. discriminate. }
  rewrite deleteMessageRecursive_S in Hrun.
  pose proof (issue_rows (SelectChildren n) db) as Hr1.
  pose proof (issue_calls (SelectChildren n) db) as Hc1.
  assert (Hsel : within s0 top (SelectChildren n)) by (exists n; auto).
  assert (Hdel : within s0 top (DeleteById n)) by (exists n; auto).
  destruct (answers db).
  2:{ subst o. injection Hfin as <-. exists [SelectChildren n].
      split; [exact Hc1|]. now constructor. }
  assert (Hi1 : forall m, In m (rows (snd (issue (SelectChildren n) db))) -> In m s0)
    by (rewrite Hr1; exact Hincl).
  assert (Hcs : forall c, In c (map id (List.filter (parent_is (Some n)) (rows db))) ->
                under s0 c top).
  { intros c Hc. apply children_spec in Hc as (x & Hx & <- & Hp).
    apply under_child with (n := n); auto. }
  destruct (for_of _ _ _) as [[] db2|e db2|] eqn:Hfor.
  - destruct (Hloop _ _ _ db2 Hi1 Hcs Hfor eq_refl) as (Lr & Hcalls & HLr).
    pose proof (issue_calls (DeleteById n) db2) as Hc3.
    exists ([SelectChildren n] ++ Lr ++ [DeleteById n]). split.
    + destruct (answers db2); subst o; injection Hfin as <-;
        cbn [calls with_rows]; rewrite Hc3, Hcalls, Hc1, <- !app_assoc; reflexivity.
    + apply List.Forall_app. split; [now constructor|].
      apply List.Forall_app. split; [exact HLr|now constructor].
  - subst o. injection Hfin as <-.
    destruct (Hloop _ _ _ db2 Hi1 Hcs Hfor eq_refl) as (Lr & Hcalls & HLr).
    exists ([SelectChildren n] ++ Lr).
    split; [now rewrite Hcalls, Hc1, <- app_assoc|].
    apply List.Forall_app. split; [now constructor|exact HLr].
  - subst o. discriminate.
Qed.

Lemma cascade_calls fuel n db o db' L :
  deleteMessageRecursive fuel n db = o -> final o = Some db' ->
  calls db' = calls db ++ L ->
  Forall (within (rows db) n) L.
Proof.
  intros Hrun Hfin Hcalls.
  destruct (cascade_within (rows db) n fuel n db o db' (fun m Hm => Hm)
              (or_introl eq_refl) Hrun Hfin) as (L' & Hc' & HL).
  rewrite Hcalls in Hc'. apply app_inv_head in Hc'. now subst L'.
Qed.

(** X10: whatever its outcome, the cascading delete of [n] only issues
    selects of children and deletes, and only for [n] and the ids of rows
    that were descendants of [n]: it issues no insert and no select of the
    whole table, and no call for an id outside the subtree. *)
Theorem cascade_calls_in_subtree (fuel : nat) (n : Z) (db : Store)
    (o : Outcome unit) (db' : Store) (L : list Call) :
  deleteMessageRecursive fuel n db = o ->
  final o = Some db' ->
  calls db' = calls db ++ L ->
  forall c, In c L ->
    exists x, (c = SelectChildren x \/ c = DeleteById x) /\
              (x = n \/ exists m, In m (rows db) /\ id m = x /\ reaches (rows db) m n).
Proof.
  intros Hrun Hfin Hcalls c Hc.
  pose proof (cascade_calls fuel n db o db' L Hrun Hfin Hcalls) as HL.
  rewrite List.Forall_forall in HL. exact (HL c Hc).
Qed.

Lemma cascade_calls_in_subtree_witness :
  exists x, (DeleteById 4 = SelectChildren x \/ DeleteById 4 = DeleteById x) /\
            (x = 1 \/ exists m, In m (rows thread_db) /\ id m = x /\
                                reaches (rows thread_db) m 1).
Proof.
  apply (cascade_calls_in_subtree 4 1 thread_db _ thread_db_after thread_calls
           eq_refl eq_refl eq_refl (DeleteById 4)).
  simpl. auto.
Defined.

(** X11: the cascade deletes children before their parent, so that, returned
    or cut short by a failing call, it leaves no orphan: no row that is
    still in the table has for [parent_id] the id of a row that the cascade
    removed. *)
Theorem cascade_no_orphans (fuel : nat) (n : Z) (db : Store)
    (o : Outcome unit) (db' : Store) :
  deleteMessageRecursive fuel n db = o ->
  final o = Some db' ->
  forall gone kept,
    In gone (rows db) -> ~ In gone (rows db') -> In kept (rows db') ->
    parent_id kept <> Some (id gone).
Proof.
  intros Hrun Hfin gone kept Hg Hng Hk.
  destruct (cascade_from_start fuel n db o db' Hrun Hfin) as (L & HI & _).
  exact (inv_closed _ _ _ _ _ HI gone Hg Hng kept Hk).
Qed.

Lemma cascade_no_orphans_witness :
  parent_id reply_a <> Some (id reply_b).
Proof.
  refine (cascade_no_orphans 4 1
            (mkStore [hello; hello_v2; reply_a; reply_b; reply_a2] 6 105 (Some 4%nat) [])
            _ _ eq_refl eq_refl reply_b reply_a _ _ _).
  - simpl. auto.
  - simpl. intros H. list_cases H; discriminate.
  - simpl. auto.
Defined.

Lemma cascade_loop_keeps_top fuel n s1 :
  acyclic s1 ->
  forall cs db1 o1 db2,
    (forall m, In m (rows db1) -> In m s1) ->
    unique_ids (rows db1) ->
    (forall c, In c cs -> exists x, In x s1 /\ id x = c /\ parent_id x = Some n) ->
    for_of cs (deleteMessageRecursive fuel) db1 = o1 -> final o1 = Some db2 ->
    forall y, In y (rows db1) -> id y = n -> In y (rows db2).
Proof.
  intros Ha. induction cs as [|c cs IHcs]; intros db1 o1 db2 Hi1 Hu1 Hcs H1 Hf1 y Hy Hidy.
  - simpl in H1. unfold ret in H1. subst o1. injection Hf1 as <-. exact Hy.
  - rewrite for_of_cons in H1.
    destruct (Hcs c (or_introl eq_refl)) as (x & Hx & Hidx & Hpx).
    assert (Hpxy : parent_id x = Some (id y)) by congruence.
    destruct (parent_not_below s1 x y Ha Hx (Hi1 y Hy) Hpxy) as [Hne Hnr].
    assert (Hkeep : forall oc dbc,
              deleteMessageRecursive fuel c db1 = oc -> final oc = Some dbc ->
              In y (rows dbc)).
    { intros oc dbc Hc Hfc.
      apply (cascade_frame fuel c db1 oc dbc Hu1 Hc Hfc y Hy); [congruence|].
      intros Hr. apply Hnr. rewrite Hidx.
      now apply reaches_incl with (s := rows db1). }
    destruct (deleteMessageRecursive fuel c db1) as [[] dbc|e dbc|] eqn:Hc.
    + pose proof (cascade_rows_incl fuel c db1 _ dbc Hc eq_refl) as Hic.
      assert (Ha1 : acyclic (rows db1)) by (eapply acyclic_incl; eauto).
      destruct (cascade_linear fuel c db1 _ dbc Hu1 Ha1 Hc eq_refl) as (Huc & _).
      apply (IHcs dbc o1 db2); auto.
      * intros c' Hc'. apply Hcs. now right.
      * exact (Hkeep _ dbc eq_refl eq_refl).
    + subst o1. injection Hf1 as <-. exact (Hkeep _ dbc eq_refl eq_refl).
    + subst o1. discriminate.
Qed.

(** X12: on an acyclic table keyed by [id], a cascade that is cut short by
    a failing call has not removed the message it was asked to delete: the
    row [n] goes last, with the one call that ends a cascade that returns. *)
Theorem cascade_thrown_keeps_top (fuel : nat) (n : Z) (db : Store)
    (e : StoreError) (db' : Store) :
  unique_ids (rows db) ->
  acyclic (rows db) ->
  deleteMessageRecursive fuel n db = Threw e db' ->
  forall y, In y (rows db) -> id y = n -> In y (rows db').
Proof.
  intros Hu Ha Hrun y Hy Hidy.
  destruct fuel as [|fuel]; [discriminate|].
  rewrite deleteMessageRecursive_S in Hrun.
  pose proof (issue_rows (SelectChildren n) db) as Hr1.
  destruct (answers db).
  2:{ assert (Hd : snd (issue (SelectChildren n) db) = db') by congruence.
      now rewrite <- Hd, Hr1. }
  assert (Hloop : forall o1 db2,
    for_of (map id (List.filter (parent_is (Some n)) (rows db)))
           (deleteMessageRecursive fuel) (snd (issue (SelectChildren n) db)) = o1 ->
    final o1 = Some db2 -> In y (rows db2)).
  { intros o1 db2 H1 Hf1.
    apply (cascade_loop_keeps_top fuel n (rows db) Ha
             (map id (List.filter (parent_is (Some n)) (rows db)))
             (snd (issue (SelectChildren n) db)) o1 db2);
      rewrite ?Hr1; auto.
    intros c Hc. now apply children_spec. }
  destruct (for_of _ _ _) as [[] db2|e2 db2|] eqn:Hfor; [| |discriminate].
  - destruct (answers db2); [discriminate|].
    assert (Hd : snd (issue (DeleteById n) db2) = db') by congruence.
    rewrite <- Hd, issue_rows. exact (Hloop _ db2 eq_refl eq_refl).
  - assert (Hd : db2 = db') by congruence.
    rewrite <- Hd. exact (Hloop _ db2 eq_refl eq_refl).
Qed.

Lemma cascade_thrown_keeps_top_witness :
  In hello [hello; hello_v2; reply_a; reply_a2].
Proof.
  refine (cascade_thrown_keeps_top 4 1
            (mkStore [hello; hello_v2; reply_a; reply_b; reply_a2] 6 105 (Some 4%nat) [])
            Unavailable
            (mkStore [hello; hello_v2; reply_a; reply_a2] 6 105 (Some O)
               [SelectChildren 1; SelectChildren 3; SelectChildren 4; DeleteById 4;
                DeleteById 3])
            thread_unique_ids thread_acyclic eq_refl hello _ eq_refl).
  simpl. auto.
Defined.

Lemma filter_none {A} (f : A -> bool) l :
  (forall x, In x l -> f x = false) -> List.filter f l = [].
Proof.
  induction l as [|x l IH]; simpl; intros H; [reflexivity|].
  rewrite (H x (or_introl eq_refl)). apply IH. auto.
Qed.

Lemma filter_all {A} (f : A -> bool) l :
  (forall x, In x l -> f x = true) -> List.filter f l = l.
Proof.
  induction l as [|x l IH]; simpl; intros H; [reflexivity|].
  rewrite (H x (or_introl eq_refl)). f_equal. apply IH. auto.
Qed.

(** X13: the cascading delete of an id that no row has, and that no row
    has for [parent_id], raises nothing of its own: it leaves the table as
    it is and, on a store that never fails, returns after the select of
    the children and the delete. *)
Theorem cascade_absent_id (fuel : nat) (n : Z) (db : Store) :
  (0 < fuel)%nat ->
  (forall m, In m (rows db) -> id m <> n /\ parent_id m <> Some n) ->
  exists db',
    final (deleteMessageRecursive fuel n db) = Some db' /\
    rows db' = rows db /\
    (uptime db = None ->
     deleteMessageRecursive fuel n db = Returned tt db' /\
     calls db' = calls db ++ [SelectChildren n; DeleteById n]).
Proof.
  intros Hfuel Habs. destruct fuel as [|fuel]; [lia|].
  rewrite deleteMessageRecursive_S.
  assert (Hkids : List.filter (parent_is (Some n)) (rows db) = []).
  { apply filter_none. intros m Hm. destruct (Habs m Hm) as [_ Hp].
    destruct (parent_is (Some n) m) eqn:E; [|reflexivity].
    apply parent_is_true in E. contradiction. }
  assert (Hall : forall s, s = rows db ->
            List.filter (fun m => negb (id m =? n)) s = rows db).
  { intros s ->. apply filter_all. intros m Hm. destruct (Habs m Hm) as [Hid _].
    apply negb_true_iff, Z.eqb_neq, Hid. }
  rewrite Hkids. simpl. unfold ret.
  pose proof (issue_rows (SelectChildren n) db) as Hr1.
  pose proof (issue_calls (SelectChildren n) db) as Hc1.
  set (db1 := snd (issue (SelectChildren n) db)) in *.
  pose proof (issue_rows (DeleteById n) db1) as Hr3.
  pose proof (issue_calls (DeleteById n) db1) as Hc3.
  destruct (answers db) eqn:Ha.
  - destruct (answers db1) eqn:Ha1.
    + eexists. split; [reflexivity|]. cbn [rows calls with_rows].
      split; [apply Hall; exact Hr1|]. intros _. split; [reflexivity|].
      now rewrite Hc3, Hc1, <- app_assoc.
    + eexists. split; [reflexivity|]. split; [now rewrite Hr3|].
      intros Hup. exfalso. unfold answers, db1, issue in Ha1.
      rewrite Hup in Ha1. discriminate.
  - eexists. split; [reflexivity|]. split; [exact Hr1|].
    intros Hup. unfold answers in Ha. rewrite Hup in Ha. discriminate.
Qed.

Lemma cascade_absent_id_witness :
  exists db',
    final (deleteMessageRecursive 1 9 thread_db) = Some db' /\
    rows db' = rows thread_db /\
    (uptime thread_db = None ->
     deleteMessageRecursive 1 9 thread_db = Returned tt db' /\
     calls db' = calls thread_db ++ [SelectChildren 9; DeleteById 9]).
Proof.
  apply (cascade_absent_id 1 9 thread_db).
  - lia.
  - intros m Hm. list_cases Hm; subst m; split; discriminate.
Defined.

(** ** Deleting from the page *)

(** X14: on a store that never fails and an acyclic table, a confirmed
    delete ends with the page showing, in the order of the select, rows of
    the table that are neither the deleted message nor its descendants;
    on a table keyed by [id] it shows all of them. *)
Theorem deleteMessage_shows_the_rest (fuel : nat) (n : Z) (w : World) :
  uptime (db w) = None ->
  acyclic (rows (db w)) ->
  (length (rows (db w)) < fuel)%nat ->
  exists w',
    deleteMessage fuel true n w = Some w' /\
    fetch_sorted (messages (ui w')) /\
    (forall m, In m (messages (ui w')) ->
               In m (rows (db w)) /\ id m <> n /\ ~ reaches (rows (db w)) m n) /\
    (unique_ids (rows (db w)) ->
     forall m, In m (rows (db w)) -> id m <> n -> ~ reaches (rows (db w)) m n ->
               In m (messages (ui w'))).
Proof.
  intros Hup Ha Hfuel.
  assert (Hns : deleteMessageRecursive fuel n (db w) <> Starved).
  { apply (cascade_fuel_enough (rows (db w)) Ha (length (rows (db w))) fuel n (db w)
             (rows (db w))); auto. }
  pose proof (cascade_healthy fuel n (db w) Hup) as Hh.
  unfold deleteMessage. simpl.
  destruct (deleteMessageRecursive fuel n (db w)) as [[] db'|e db'|] eqn:Hrun;
    [|destruct Hh|congruence].
  eexists. split; [reflexivity|].
  assert (Hans : answers (db (mkWorld (ui w) db')) = true).
  { unfold answers. simpl. now rewrite Hh. }
  destruct (fetchMessages_answered _ Hans) as (Hm & _). rewrite Hm. simpl.
  split; [apply order_rows_sorted|]. split.
  - intros m Hin. apply (proj1 (order_rows_In _ _)) in Hin.
    exact (cascade_gone fuel n (db w) db' Hrun m Hin).
  - intros Hu m Hin Hne Hnr. apply order_rows_In.
    exact (cascade_frame fuel n (db w) _ db' Hu Hrun eq_refl m Hin Hne Hnr).
Qed.

Lemma deleteMessage_shows_the_rest_witness :
  exists w',
    deleteMessage 6 true 1 (mkWorld initial_state thread_db) = Some w' /\
    fetch_sorted (messages (ui w')) /\
    (forall m, In m (messages (ui w')) ->
               In m (rows thread_db) /\ id m <> 1 /\ ~ reaches (rows thread_db) m 1) /\
    (unique_ids (rows thread_db) ->
     forall m, In m (rows thread_db) -> id m <> 1 -> ~ reaches (rows thread_db) m 1 ->
               In m (messages (ui w'))).
Proof.
  apply (deleteMessage_shows_the_rest 6 1 (mkWorld initial_state thread_db)).
  - reflexivity.
  - exact thread_acyclic.
  - simpl. lia.
Defined.

Lemma within_not_select_all s0 top : ~ within s0 top SelectAll.
Proof. intros (x & [H|H] & _); discriminate. Qed.

(** X15: a delete that the user does not confirm does nothing at all; a
    confirmed delete whose cascade throws leaves the snapshot as it was,
    sets the error message and does not refetch: the store is left as the
    cascade left it, with no select of the whole table issued. *)
Theorem deleteMessage_refused_or_failed
    (fuel : nat) (confirmed : bool) (i : Z) (w w' : World) :
  deleteMessage fuel confirmed i w = Some w' ->
  (confirmed = false -> w' = w) /\
  (forall e d,
     confirmed = true ->
     deleteMessageRecursive fuel i (db w) = Threw e d ->
     messages (ui w') = messages (ui w) /\
     errorMessage (ui w') = Some "Error deleting message. Please try again."%string /\
     db w' = d /\
     (forall L, calls d = calls (db w) ++ L -> ~ In SelectAll L)).
Proof.
  intros Hd. unfold deleteMessage in Hd. split.
  - intros ->. simpl in Hd. now injection Hd as <-.
  - intros e d -> Hrun. simpl in Hd. rewrite Hrun in Hd. injection Hd as <-.
    simpl. repeat split.
    intros L HL Hin.
    pose proof (cascade_calls fuel i (db w) _ d L Hrun eq_refl HL) as HF.
    rewrite List.Forall_forall in HF.
    exact (within_not_select_all _ _ (HF _ Hin)).
Qed.

Lemma deleteMessage_refused_or_failed_witness :
  messages (ui (mkWorld
      (setErrorMessage (Some "Error deleting message. Please try again."%string)
                       (ui thread_page))
      (snd (issue (SelectChildren 1) thread_db_down)))) =
  messages (ui (mkWorld (ui thread_page) thread_db_down)).
Proof.
  refine (proj1 (proj2 (deleteMessage_refused_or_failed 4 true 1
                   (mkWorld (ui thread_page) thread_db_down) _ eq_refl)
                   Unavailable (snd (issue (SelectChildren 1) thread_db_down))
                   eq_refl eq_refl)).
Defined.

(** ** Rendering *)

Lemma map_option_mono {A B} (f g : A -> option B) l :
  (forall x y, f x = Some y -> g x = Some y) ->
  forall ys, map_option f l = Some ys -> map_option g l = Some ys.
Proof.
  intros H. induction l as [|x l IH]; simpl; intros ys Hys; [exact Hys|].
  destruct (f x) as [y|] eqn:Hx; [|discriminate].
  destruct (map_option f l) as [ys'|]; [|discriminate].
  now rewrite (H x y Hx), (IH ys' eq_refl).
Qed.

Lemma map_option_defined {A B} (f : A -> option B) l :
  (forall x, In x l -> f x <> None) -> map_option f l <> None.
Proof.
  induction l as [|x l IH]; simpl; intros H; [discriminate|].
  destruct (f x) eqn:Hx; [|exfalso; exact (H x (or_introl eq_refl) Hx)].
  destruct (map_option f l); [discriminate|]. exfalso. apply IH; auto.
Qed.

Lemma map_option_total {A B} (f : A -> option B) (g : A -> B) l :
  (forall x, In x l -> f x = Some (g x)) -> map_option f l = Some (map g l).
Proof.
  induction l as [|x l IH]; simpl; intros H; [reflexivity|].
  rewrite (H x (or_introl eq_refl)), IH; auto.
Qed.

Lemma map_option_In {A B} (f : A -> option B) l :
  forall ys, map_option f l = Some ys ->
  (forall y, In y ys -> exists x, In x l /\ f x = Some y) /\
  (forall x, In x l -> exists y, f x = Some y /\ In y ys).
Proof.
  induction l as [|x l IH]; simpl; intros ys Hys.
  - injection Hys as <-. split; intros ? [].
  - destruct (f x) as [y|] eqn:Hx; [|discriminate].
    destruct (map_option f l) as [ys'|]; [|discriminate].
    injection Hys as <-. destruct (IH ys' eq_refl) as [H1 H2]. split.
    + intros y0 Hy0. destruct Hy0 as [Hy0|Hy0].
      * subst y0. exists x. auto.
      * destruct (H1 y0 Hy0) as (x0 & Hx0 & Hf). exists x0. auto.
    + intros x0 Hx0. destruct Hx0 as [Hx0|Hx0].
      * subst x0. exists y. split; [exact Hx|now left].
      * destruct (H2 x0 Hx0) as (y0 & Hf & Hy0). exists y0. split; [exact Hf|now right].
Qed.

Lemma sortedMessages_In msgs parentId m :
  In m (sortedMessages msgs parentId) <-> In m msgs /\ parent_id m = parentId.
Proof.
  unfold sortedMessages. rewrite js_sort_In, List.filter_In, parent_is_true. tauto.
Qed.

Lemma renderMessages_S fuel msgs bv parentId level :
  renderMessages (S fuel) msgs bv parentId level =
  map_option
    (fun message =>
       if visible bv (id message) then
         match renderMessages fuel msgs bv (Some (id message)) (level + 1) with
         | Some inner => Some (Card message level (Some inner))
         | None => None
         end
       else Some (Card message level None))
    (sortedMessages msgs parentId).
Proof. reflexivity. Qed.

Lemma renderMessages_fuel_S msgs bv fuel :
  forall parentId level cards,
    renderMessages fuel msgs bv parentId level = Some cards ->
    renderMessages (S fuel) msgs bv parentId level = Some cards.
Proof.
  induction fuel as [|fuel IH]; intros parentId level cards H; [discriminate|].
  rewrite renderMessages_S in H. rewrite renderMessages_S.
  revert H. apply map_option_mono. intros x y.
  destruct (visible bv (id x)); [|auto].
  destruct (renderMessages fuel msgs bv (Some (id x)) (level + 1)) as [inner|] eqn:E;
    [|discriminate].
  now rewrite (IH _ _ _ E).
Qed.

Lemma renderMessages_fuel_le msgs bv fuel fuel' parentId level cards :
  renderMessages fuel msgs bv parentId level = Some cards -> (fuel <= fuel')%nat ->
  renderMessages fuel' msgs bv parentId level = Some cards.
Proof.
  intros H Hle. induction Hle as [|fuel' _ IH]; [exact H|].
  now apply renderMessages_fuel_S.
Qed.

Lemma renderMessages_fuel_enough msgs bv :
  acyclic msgs ->
  forall k fuel parentId level D,
    (forall m, In m msgs -> below msgs parentId m -> In m D) ->
    (length D <= k)%nat -> (k < fuel)%nat ->
    renderMessages fuel msgs bv parentId level <> None.
Proof.
  intros Ha. induction k as [|k IH]; intros fuel parentId level D HD Hlen Hk;
    (destruct fuel as [|fuel]; [lia|]); rewrite renderMessages_S;
    apply map_option_defined; intros x Hx;
    apply sortedMessages_In in Hx as [Hx Hp];
    (destruct (visible bv (id x)); [|discriminate]);
    assert (HxD : In x D)
      by (apply HD; [exact Hx|];
          destruct parentId; simpl; [now apply reaches_parent|exact I]).
  - destruct D; [destruct HxD | simpl in Hlen; lia].
  - assert (Hsub : renderMessages fuel msgs bv (Some (id x)) (level + 1) <> None).
    { apply (IH fuel (Some (id x)) (level + 1)%nat (remove Message_eq_dec x D)); [| |lia].
      - intros m Hm Hr. simpl in Hr. apply in_in_remove.
        + intros ->. exact (Ha x Hx Hr).
        + apply HD; [exact Hm|]. destruct parentId as [n|]; simpl; [|exact I].
          now apply reaches_through with (x := x).
      - pose proof (remove_length_lt Message_eq_dec D x HxD). lia. }
    destruct (renderMessages fuel msgs bv (Some (id x)) (level + 1));
      [discriminate|congruence].
Qed.

(** X16: on a snapshot whose [parent_id] references are acyclic the
    recursion of [renderMessages] ends, whatever branches are shown: from a
    nesting budget of one more than the number of messages on, it gives one
    and the same list of cards, and the view is defined. *)
Theorem renderMessages_terminates (st : AppState) (parentId : option Z) (level : nat) :
  acyclic (messages st) ->
  (exists cards, forall fuel, (length (messages st) < fuel)%nat ->
     renderMessages fuel (messages st) (branchesVisible st) parentId level
       = Some cards) /\
  (exists v, forall fuel, (length (messages st) < fuel)%nat ->
     view fuel st = Some v).
Proof.
  intros Ha.
  assert (H : forall P lvl, exists cards, forall fuel,
            (length (messages st) < fuel)%nat ->
            renderMessages fuel (messages st) (branchesVisible st) P lvl = Some cards).
  { intros P lvl.
    destruct (renderMessages (S (length (messages st))) (messages st)
                (branchesVisible st) P lvl) as [cards|] eqn:E.
    - exists cards. intros fuel Hf.
      apply (renderMessages_fuel_le _ _ (S (length (messages st)))); [exact E|lia].
    - exfalso. revert E.
      apply (renderMessages_fuel_enough _ _ Ha (length (messages st)) _ P lvl
               (messages st)); auto. }
  split; [apply H|].
  destruct (H None 0%nat) as (cards & Hc).
  exists (concat (map flatten_card cards)). intros fuel Hf.
  unfold view. now rewrite (Hc fuel Hf).
Qed.

Lemma thread_page_acyclic : acyclic (messages thread_page_open).
Proof.
  apply acyclic_by_ids. intros m p Hm Hp.
  list_cases Hm; subst m; simpl in Hp; try discriminate;
    injection Hp as <-; simpl; lia.
Qed.

Lemma renderMessages_terminates_witness :
  exists v, forall fuel, (5 < fuel)%nat -> view fuel thread_page_open = Some v.
Proof.
  exact (proj2 (renderMessages_terminates thread_page_open None 0 thread_page_acyclic)).
Defined.

Lemma flatten_card_shown m lvl inner :
  flatten_card (Card m lvl (Some inner)) = (m, lvl) :: concat (map flatten_card inner).
Proof.
  cbn [flatten_card]. f_equal.
  induction inner as [|e inner IH]; [reflexivity|].
  cbn [map concat]. now rewrite <- IH.
Qed.

Lemma flatten_cards_In (cards : list Element) m d :
  In (m, d) (concat (map flatten_card cards)) <->
  exists card, In card cards /\ In (m, d) (flatten_card card).
Proof.
  rewrite in_concat. split.
  - intros (l & Hl & Hin). apply in_map_iff in Hl as (card & <- & Hc). eauto.
  - intros (card & Hc & Hin). exists (flatten_card card).
    split; [now apply in_map|exact Hin].
Qed.

Lemma renderMessages_shown msgs bv fuel :
  forall parentId level cards,
    renderMessages fuel msgs bv parentId level = Some cards ->
    forall m d, In (m, d) (concat (map flatten_card cards)) ->
                shown msgs bv parentId level m d.
Proof.
  induction fuel as [|fuel IH]; intros parentId level cards H m d Hin; [discriminate|].
  rewrite renderMessages_S in H.
  apply flatten_cards_In in Hin as (card & Hc & Hin).
  destruct (map_option_In _ _ cards H) as [H1 _].
  destruct (H1 card Hc) as (x & Hx & Hf).
  apply sortedMessages_In in Hx as [Hx Hp].
  destruct (visible bv (id x)) eqn:Hv.
  - destruct (renderMessages fuel msgs bv (Some (id x)) (level + 1)) as [inner|] eqn:E;
      [|discriminate].
    injection Hf as <-. rewrite flatten_card_shown in Hin.
    destruct Hin as [[= <- <-]|Hin].
    + now apply shown_here.
    + apply (shown_below msgs bv parentId level x m d Hx Hp Hv).
      exact (IH _ _ _ E m d Hin).
  - injection Hf as <-. destruct Hin as [[= <- <-]|[]]. now apply shown_here.
Qed.

Lemma shown_renderMessages msgs bv parentId level m d :
  shown msgs bv parentId level m d ->
  forall fuel cards,
    renderMessages fuel msgs bv parentId level = Some cards ->
    In (m, d) (concat (map flatten_card cards)).
Proof.
  induction 1 as [parentId level m Hm Hp|parentId level p m d Hp Hpp Hv _ IH];
    intros fuel cards H; (destruct fuel as [|fuel]; [discriminate|]);
    rewrite renderMessages_S in H;
    destruct (map_option_In _ _ cards H) as [_ H2].
  - destruct (H2 m (proj2 (sortedMessages_In msgs parentId m) (conj Hm Hp)))
      as (card & Hf & Hc).
    apply flatten_cards_In. exists card. split; [exact Hc|].
    destruct (visible bv (id m)).
    + destruct (renderMessages fuel msgs bv (Some (id m)) (level + 1)); [|discriminate].
      injection Hf as <-. rewrite flatten_card_shown. now left.
    + injection Hf as <-. now left.
  - destruct (H2 p (proj2 (sortedMessages_In msgs parentId p) (conj Hp Hpp)))
      as (card & Hf & Hc).
    apply flatten_cards_In. exists card. split; [exact Hc|].
    rewrite Hv in Hf.
    destruct (renderMessages fuel msgs bv (Some (id p)) (level + 1)) as [inner|] eqn:E;
      [|discriminate].
    injection Hf as <-. rewrite flatten_card_shown. right.
    exact (IH fuel inner E).
Qed.

(** X17: what the view holds.  A message stands in the view at depth [d]
    exactly when it is a row of the snapshot whose [parent_id] chain leads
    to the root in [d] steps through rows of the snapshot that all have
    their branches shown: hidden branches are left out with all that is
    below them, and nothing else is. *)
Theorem view_shows (fuel : nat) (st : AppState) (v : list (Message * nat)) :
  view fuel st = Some v ->
  forall m d,
    In (m, d) v <-> shown (messages st) (branchesVisible st) None 0 m d.
Proof.
  unfold view. intros H m d.
  destruct (renderMessages fuel (messages st) (branchesVisible st) None 0)
    as [cards|] eqn:E; [|discriminate].
  injection H as <-. split.
  - exact (renderMessages_shown _ _ fuel None 0%nat cards E m d).
  - intros Hs. exact (shown_renderMessages _ _ None 0%nat m d Hs fuel cards E).
Qed.

Lemma view_shows_witness :
  In (reply_b, 2%nat)
     [(hello_v2, 0%nat); (hello, 0%nat); (reply_a2, 1%nat); (reply_a, 1%nat);
      (reply_b, 2%nat)] <->
  shown (messages thread_page_open) (branchesVisible thread_page_open) None 0
        reply_b 2.
Proof.
  exact (view_shows 3 thread_page_open _ eq_refl reply_b 2%nat).
Defined.

Lemma flatten_collapsed (l : list Message) (level : nat) :
  concat (map flatten_card (map (fun m => Card m level None) l)) =
  map (fun m => (m, level)) l.
Proof.
  induction l as [|x l IH]; [reflexivity|].
  cbn [map concat flatten_card app]. now rewrite IH.
Qed.

(** X18: while no message of the snapshot has its branches shown, as on a
    page that was just opened, the view is the root level alone: the rows
    with a null [parent_id], by descending version, all at depth 0. *)
Theorem view_collapsed (fuel : nat) (st : AppState) :
  (0 < fuel)%nat ->
  (forall m, In m (messages st) -> visible (branchesVisible st) (id m) = false) ->
  view fuel st =
    Some (map (fun m => (m, 0%nat)) (sortedMessages (messages st) None)).
Proof.
  intros Hfuel Hhidden. destruct fuel as [|fuel]; [lia|].
  unfold view. rewrite renderMessages_S.
  rewrite (map_option_total _ (fun m => Card m 0 None)).
  - now rewrite flatten_collapsed.
  - intros x Hx. apply sortedMessages_In in Hx as [Hx _].
    now rewrite (Hhidden x Hx).
Qed.

Lemma view_collapsed_witness :
  view 1 (ui thread_page) =
    Some (map (fun m => (m, 0%nat)) (sortedMessages (messages (ui thread_page)) None)).
Proof.
  apply (view_collapsed 1 (ui thread_page)); [lia|].
  intros m _. reflexivity.
Defined.

(** ** What the page can create *)

Lemma fetchMessages_from_rows w m :
  In m (messages (ui (fetchMessages w))) ->
  In m (messages (ui w)) \/ In m (rows (db w)).
Proof.
  unfold fetchMessages, select_all.
  pose proof (issue_rows SelectAll (db w)) as Hr.
  destruct (issue SelectAll (db w)) as [[|] db1]; simpl in *; [|now left].
  intros H. right. apply (proj1 (order_rows_In _ _)) in H. now rewrite <- Hr.
Qed.

Lemma fetchMessages_rows w : rows (db (fetchMessages w)) = rows (db w).
Proof.
  unfold fetchMessages, select_all.
  pose proof (issue_rows SelectAll (db w)) as Hr.
  destruct (issue SelectAll (db w)) as [[|] db1]; simpl in *; exact Hr.
Qed.

Lemma fetchMessages_selected w :
  selectedMessage (ui (fetchMessages w)) = selectedMessage (ui w).
Proof.
  unfold fetchMessages. destruct (select_all (db w)) as [r db'].
  now destruct (error r).
Qed.

Lemma fetchMessages_only_roots w : only_roots w -> only_roots (fetchMessages w).
Proof.
  intros (Hr & Hm & Hs). split; [|split].
  - intros m H. rewrite fetchMessages_rows in H. now apply Hr.
  - intros m H.
    apply fetchMessages_from_rows in H as [H|H]; [now apply Hm|now apply Hr].
  - intros m H. rewrite fetchMessages_selected in H. now apply Hs.
Qed.

Lemma sendMessage_selected parentMessage w m :
  selectedMessage (ui (sendMessage parentMessage w)) = Some m ->
  selectedMessage (ui w) = Some m.
Proof.
  unfold sendMessage. destruct (is_empty _); [auto|].
  destruct (insert _ _ _ _) as [r db']. destruct (error r); simpl; [auto|discriminate].
Qed.

Lemma sendMessage_only_roots w :
  only_roots w -> only_roots (sendMessage (selectedMessage (ui w)) w).
Proof.
  intros (Hr & Hm & Hs).
  assert (Hrows : forall m,
    In m (rows (db (sendMessage (selectedMessage (ui w)) w))) -> root_version m).
  { intros m Hin.
    destruct (is_empty (trim (input (ui w)))) eqn:E.
    - unfold sendMessage in Hin. rewrite E in Hin. now apply Hr.
    - assert (Hnb : ~ blank (input (ui w))).
      { intros Hb. apply is_empty_trim in Hb. congruence. }
      destruct (sendMessage_store (selectedMessage (ui w)) w Hnb) as [_ Heq].
      rewrite Heq in Hin. apply in_app_or in Hin as [Hin|Hin]; [now apply Hr|].
      destruct (answers (db w)); [|destruct Hin].
      destruct Hin as [<-|[]]. unfold root_version. simpl.
      destruct (selectedMessage (ui w)) as [p|]; [|split; [reflexivity|lia]].
      destruct (Hs p eq_refl) as [Hp Hv]. split; [exact Hp|].
      now apply js_add_one_ge. }
  split; [exact Hrows|]. split.
  - intros m. rewrite sendMessage_messages. apply Hm.
  - intros m H. apply sendMessage_selected in H. now apply Hs.
Qed.

Lemma page_step_only_roots w w' : page_step w w' -> only_roots w -> only_roots w'.
Proof.
  intros Hstep Hw. pose proof Hw as (Hr & Hm & Hs).
  destruct Hstep as [w|w text|w m Hin|w m Hin|w|w enter|w|w i|w fuel confirmed i w' Hd].
  - now apply fetchMessages_only_roots.
  - exact Hw.
  - split; [exact Hr|]. split; [exact Hm|]. simpl. intros m' [= <-]. now apply Hm.
  - split; [exact Hr|]. split; [exact Hm|]. simpl. intros m' [= <-]. now apply Hm.
  - now apply sendMessage_only_roots.
  - unfold handleKeyPress. destruct enter; [now apply sendMessage_only_roots|exact Hw].
  - split; [exact Hr|]. split; [exact Hm|]. simpl. discriminate.
  - exact Hw.
  - unfold deleteMessage in Hd. destruct confirmed; simpl in Hd;
      [|injection Hd as <-; exact Hw].
    destruct (deleteMessageRecursive fuel i (db w)) as [[] db'|e db'|] eqn:Hrun;
      [| |discriminate]; injection Hd as <-.
    + apply fetchMessages_only_roots. split; [|split; [exact Hm|exact Hs]].
      simpl. intros m Hin. apply Hr.
      exact (cascade_rows_incl fuel i (db w) _ db' Hrun eq_refl m Hin).
    + split; [|split; [exact Hm|exact Hs]].
      simpl. intros m Hin. apply Hr.
      exact (cascade_rows_incl fuel i (db w) _ db' Hrun eq_refl m Hin).
Qed.

(** X19: the page on its own never makes a reply.  Every row it inserts
    takes the [parent_id] of the selected message, or null when there is
    none, so that from a table that holds root-level messages only (an
    empty one, say) no sequence of sends, edits, branch replies, deletes,
    toggles and refetches leads to a row with a [parent_id]; the versions
    it gives stay at 1 or above. *)
Theorem page_makes_only_roots (w w' : World) :
  only_roots w ->
  rtc page_step w w' ->
  only_roots w'.
Proof.
  intros Hw Hsteps. induction Hsteps as [w|w w1 w' Hstep _ IH]; [exact Hw|].
  apply IH. now apply (page_step_only_roots w).
Qed.

Lemma page_makes_only_roots_witness :
  only_roots (branch_reply hello (of_ascii "Reply A") board_hello).
Proof.
  apply (page_makes_only_roots board_hello).
  - split; [|split].
    + intros m H. list_cases H. subst m. split; [reflexivity|simpl; lia].
    + intros m H. list_cases H. subst m. split; [reflexivity|simpl; lia].
    + intros m H. discriminate H.
  - eapply rtc_l; [apply (page_branch_reply board_hello hello); simpl; auto|].
    eapply rtc_l; [apply (page_typed _ (of_ascii "Reply A"))|].
    apply rtc_once. apply page_send.
Defined.
